(** * PAM / k-medoids core: Point assignment, swap cost and the orchestrator

    A shallow embedding of [clustering_algorithms/point.py] and
    [clustering_algorithms/k_medoids_algorithm.py].

    Python objects live in a store indexed by object identity; methods are
    computations in a state-and-exception monad over that store.  Numbers
    (Python floats other than NaN) are an abstract ordered type, NaN and
    [None] are separate markers of the attribute slots. *)

From Stdlib Require Import String ZArith List Bool Lia Permutation Sorted.
Import ListNotations.

Set Implicit Arguments.

(** ** Numbers

    The distances are Python floats.  The code only compares them with [<]
    and [>=] and subtracts them, so the development is stated over any
    number type with these operations in which [>=] is the negation of [<]
    and [<] is a strict weak order; NaN is not a member of [num], it is the
    [DNan] marker below. *)

Class Number : Type := {
  num : Type;
  num_lt : num -> num -> bool;
  num_ge : num -> num -> bool;
  num_sub : num -> num -> num;
  num_zero : num;
  num_ge_lt : forall a b, num_ge a b = negb (num_lt a b);
  num_lt_asym : forall a b, num_lt a b = true -> num_lt b a = false;
  num_lt_negtrans :
    forall a b c, num_lt a c = true -> num_lt a b = true \/ num_lt b c = true
}.

(** Python exceptions raised by the modelled code and by the library calls
    it makes. *)
Inductive exn : Type :=
| ValueError (msg : string)
| TypeError
| IndexError
| KeyError (key : string)
| AttributeError (name : string).

(** The three errors of the specification's taxonomy are all [ValueError]s
    in the source; they differ by the place that raises them. *)
Definition ConfigurationError : exn :=
  ValueError "Number of labels needs to be the same as the number of clusters.".
Definition InsufficientPointsError : exn :=
  ValueError "Sample larger than population or is negative".
Definition InvalidSwapError : exn :=
  ValueError "list.remove(x): x not in list".

(** ** The monad: state threading with exceptions; the state reached when
    an exception is raised is kept, so that what a failing call has and has
    not changed can be stated. *)

Definition M (S A : Type) : Type := S -> (exn + A) * S.

Definition ret {S A} (x : A) : M S A := fun w => (inr x, w).

Definition raise {S A} (e : exn) : M S A := fun w => (inl e, w).

Definition bind {S A B} (c : M S A) (k : A -> M S B) : M S B :=
  fun w =>
    match c w with
    | (inl e, w') => (inl e, w')
    | (inr x, w') => k x w'
    end.

Notation "x <- c ;; k" := (bind c (fun x => k))
  (at level 61, c at next level, right associativity).
Notation "c ;;; k" := (bind c (fun _ => k))
  (at level 61, right associativity).

Fixpoint for_each {S A} (l : list A) (body : A -> M S unit) : M S unit :=
  match l with
  | [] => ret tt
  | x :: l' => body x ;;; for_each l' body
  end.

Fixpoint fold_M {S A B} (f : B -> A -> M S B) (l : list A) (b : B) : M S B :=
  match l with
  | [] => ret b
  | x :: l' => b' <- f b x ;; fold_M f l' b'
  end.

Fixpoint map_M {S A B} (f : A -> M S B) (l : list A) : M S (list B) :=
  match l with
  | [] => ret []
  | x :: l' => y <- f x ;; ys <- map_M f l' ;; ret (y :: ys)
  end.

(** ** Python containers *)

(** A [dict] keeps its keys in insertion order; assigning to a key that is
    present replaces the value in place. *)
Fixpoint dict_set {K V} (eqb : K -> K -> bool) (k : K) (v : V)
    (d : list (K * V)) : list (K * V) :=
  match d with
  | [] => [(k, v)]
  | (k', v') :: d' =>
      if eqb k' k then (k', v) :: d' else (k', v') :: dict_set eqb k v d'
  end.

Fixpoint dict_get {K V} (eqb : K -> K -> bool) (k : K) (d : list (K * V))
  : option V :=
  match d with
  | [] => None
  | (k', v') :: d' => if eqb k' k then Some v' else dict_get eqb k d'
  end.

(** A dict display or comprehension: the items are assigned in order. *)
Definition dict_of {K V} (eqb : K -> K -> bool) (items : list (K * V))
  : list (K * V) :=
  fold_left (fun d kv => dict_set eqb (fst kv) (snd kv) d) items [].

(** [enumerate(l)], counting from [i]. *)
Fixpoint enumerate_from {A} (i : Z) (l : list A) : list (Z * A) :=
  match l with
  | [] => []
  | x :: l' => (i, x) :: enumerate_from (i + 1) l'
  end.

(** [list.remove(x)]: drops the first occurrence, [None] when there is
    none (the method then raises [ValueError]). *)
Fixpoint list_remove (x : Z) (l : list Z) : option (list Z) :=
  match l with
  | [] => None
  | y :: l' =>
      if Z.eqb y x then Some l'
      else match list_remove x l' with
           | Some r => Some (y :: r)
           | None => None
           end
  end.

(** The zero-based position of the first occurrence. *)
Fixpoint index_of (x : Z) (l : list Z) : option nat :=
  match l with
  | [] => None
  | y :: l' =>
      if Z.eqb y x then Some O
      else match index_of x l' with
           | Some i => Some (S i)
           | None => None
           end
  end.

(** Object identity. *)
Definition addr := nat.

Section Model.

Context {N : Number}.

(** Coordinates carry their names (they become columns of the result). *)
Definition coords : Type := list (string * num).

(** [clustering_algorithms.utils.compute_distance] is not part of the two
    modelled files: it is a parameter. *)
Variable compute_distance : coords -> coords -> num.

(** What a medoid attribute can hold: [None], [np.nan] or a Point. *)
Inductive medoid_slot : Type :=
| MNone
| MNan
| MRef (a : addr).

(** What a distance attribute can hold: [None], [np.nan] or a number. *)
Inductive dist_slot : Type :=
| DNone
| DNan
| DNum (d : num).

Record Point : Type := mkPoint {
  idx : Z;
  coordinates : coords;
  nearest_medoid : medoid_slot;
  nearest_medoid_distance : dist_slot;
  second_nearest_medoid : medoid_slot;
  second_nearest_medoid_distance : dist_slot
}.

(** [Point.__init__] *)
Definition Point_init (i : Z) (c : coords) : Point :=
  mkPoint i c MNone DNone MNone DNone.

(** The store, the log of the calls made to [compute_distance], and the
    source of randomness read by [random.sample]. *)
Record world : Type := mkWorld {
  objs : addr -> Point;
  distance_calls : list (coords * coords);
  rng : list nat
}.

(** *** Attribute access *)

Definition store (w : world) (a : addr) (p : Point) : world :=
  mkWorld (fun b => if Nat.eqb b a then p else objs w b)
          (distance_calls w) (rng w).

Definition get {A} (f : Point -> A) (self : addr) : M world A :=
  fun w => (inr (f (objs w self)), w).

Definition set_nearest_medoid (self : addr) (v : medoid_slot) : M world unit :=
  fun w =>
    let p := objs w self in
    (inr tt,
     store w self
       (mkPoint (idx p) (coordinates p) v (nearest_medoid_distance p)
                (second_nearest_medoid p) (second_nearest_medoid_distance p))).

Definition set_nearest_medoid_distance (self : addr) (v : dist_slot)
  : M world unit :=
  fun w =>
    let p := objs w self in
    (inr tt,
     store w self
       (mkPoint (idx p) (coordinates p) (nearest_medoid p) v
                (second_nearest_medoid p) (second_nearest_medoid_distance p))).

Definition set_second_nearest_medoid (self : addr) (v : medoid_slot)
  : M world unit :=
  fun w =>
    let p := objs w self in
    (inr tt,
     store w self
       (mkPoint (idx p) (coordinates p) (nearest_medoid p)
                (nearest_medoid_distance p) v
                (second_nearest_medoid_distance p))).

Definition set_second_nearest_medoid_distance (self : addr) (v : dist_slot)
  : M world unit :=
  fun w =>
    let p := objs w self in
    (inr tt,
     store w self
       (mkPoint (idx p) (coordinates p) (nearest_medoid p)
                (nearest_medoid_distance p) (second_nearest_medoid p) v)).

(** A call of the external distance function, logged. *)
Definition call_compute_distance (a b : coords) : M world num :=
  fun w =>
    (inr (compute_distance a b),
     mkWorld (objs w) (distance_calls w ++ [(a, b)]) (rng w)).

(** *** Python operators on the slots *)

(** [x in xs] for Points: Point defines no [__eq__], so this is identity. *)
Definition py_in (self : addr) (medoids : list addr) : bool :=
  existsb (Nat.eqb self) medoids.

(** [x is np.nan] *)
Definition is_nan (v : medoid_slot) : bool :=
  match v with MNan => true | _ => false end.

(** [x == y] where [y] is a Point. *)
Definition py_eq_point (v : medoid_slot) (p : addr) : bool :=
  match v with MRef a => Nat.eqb a p | _ => false end.

(** [d < v]: a comparison with NaN is false, one with [None] raises. *)
Definition py_lt (d : num) (v : dist_slot) : M world bool :=
  match v with
  | DNum x => ret (num_lt d x)
  | DNan => ret false
  | DNone => raise TypeError
  end.

(** [d >= v] *)
Definition py_ge (d : num) (v : dist_slot) : M world bool :=
  match v with
  | DNum x => ret (num_ge d x)
  | DNan => ret false
  | DNone => raise TypeError
  end.

(** [u - v]: NaN is absorbing, [None] raises. *)
Definition py_sub (u v : dist_slot) : M world dist_slot :=
  match u, v with
  | DNone, _ | _, DNone => raise TypeError
  | DNum x, DNum y => ret (DNum (num_sub x y))
  | _, _ => ret DNan
  end.

(** ** Point.update_cluster_assignment *)

(** The body of the loop over the medoids. *)
Definition scan_medoid (self medoid : addr) : M world unit :=
  sc <- get coordinates self ;;
  mc <- get coordinates medoid ;;
  distance <- call_compute_distance sc mc ;;
  nm <- get nearest_medoid self ;;
  better <- (if is_nan nm then ret true
             else nmd <- get nearest_medoid_distance self ;;
                  py_lt distance nmd) ;;
  if better then
    nm <- get nearest_medoid self ;;
    set_second_nearest_medoid self nm ;;;
    nmd <- get nearest_medoid_distance self ;;
    set_second_nearest_medoid_distance self nmd ;;;
    set_nearest_medoid self (MRef medoid) ;;;
    set_nearest_medoid_distance self (DNum distance)
  else
    snm <- get second_nearest_medoid self ;;
    closer <- (if is_nan snm then ret true
               else snmd <- get second_nearest_medoid_distance self ;;
                    py_lt distance snmd) ;;
    if closer then
      set_second_nearest_medoid self (MRef medoid) ;;;
      set_second_nearest_medoid_distance self (DNum distance)
    else ret tt.

Definition update_cluster_assignment (self : addr) (medoids : list addr)
  : M world unit :=
  if py_in self medoids then
    set_nearest_medoid self (MRef self)
  else
    set_nearest_medoid self MNan ;;;
    set_nearest_medoid_distance self DNan ;;;
    set_second_nearest_medoid self MNan ;;;
    set_second_nearest_medoid_distance self DNan ;;;
    for_each medoids (scan_medoid self).

(** ** Point.compute_medoid_replacement_cost *)

Definition compute_medoid_replacement_cost
    (self medoid_to_change new_medoid : addr) (medoids : list addr)
  : M world dist_slot :=
  if py_in self medoids then ret (DNum num_zero)
  else
    sc <- get coordinates self ;;
    nc <- get coordinates new_medoid ;;
    new_medoid_distance <- call_compute_distance sc nc ;;
    nm <- get nearest_medoid self ;;
    if py_eq_point nm medoid_to_change then
      snmd <- get second_nearest_medoid_distance self ;;
      far <- py_ge new_medoid_distance snmd ;;
      if far then
        nmd <- get nearest_medoid_distance self ;;
        py_sub snmd nmd
      else
        nmd <- get nearest_medoid_distance self ;;
        py_sub (DNum new_medoid_distance) nmd
    else
      nmd <- get nearest_medoid_distance self ;;
      far <- py_ge new_medoid_distance nmd ;;
      if far then ret (DNum num_zero)
      else py_sub (DNum new_medoid_distance) nmd.

(** ** random.sample

    The library function, after CPython: the size check, then [k] draws
    from a pool from which each drawn element is taken out.  The random
    integers come from the [rng] component of the world. *)

Definition randbelow (n : nat) : M world nat :=
  fun w =>
    match rng w with
    | [] => (inr O, w)
    | r :: rs => (inr (Nat.modulo r n), mkWorld (objs w) (distance_calls w) rs)
    end.

Fixpoint draw (k : nat) (pool : list Z) : M world (list Z) :=
  match k with
  | O => ret []
  | S k' =>
      j <- randbelow (length pool) ;;
      match nth_error pool j with
      | None => raise IndexError
      | Some x =>
          rest <- draw k' (firstn j pool ++ skipn (S j) pool) ;;
          ret (x :: rest)
      end
  end.

Definition random_sample (population : list Z) (k : Z) : M world (list Z) :=
  if ((0 <=? k) && (k <=? Z.of_nat (length population)))%Z
  then draw (Z.to_nat k) population
  else raise InsufficientPointsError.

(** ** KMedoidsAlgorithm *)

Record KMedoidsAlgorithm : Type := mkAlgorithm {
  points : list addr;
  clusters_num : Z;
  labels : option (list string);
  medoids_indices : list Z
}.

(** Truth value of the [labels] argument: [None] and the empty list are
    false. *)
Definition truthy (labels : option (list string)) : bool :=
  match labels with
  | Some (_ :: _) => true
  | _ => false
  end.

(** [len(labels)], read only where [labels] is true. *)
Definition len_labels (labels : option (list string)) : Z :=
  match labels with
  | Some l => Z.of_nat (length l)
  | None => 0%Z
  end.

Definition get_initial_medoids_indices (source_points : list addr)
    (clusters_num : Z) : M world (list Z) :=
  points_indices <- map_M (get idx) source_points ;;
  random_sample points_indices clusters_num.

(** [KMedoidsAlgorithm.__init__] *)
Definition KMedoidsAlgorithm_init (points : list addr) (clusters_num : Z)
    (labels : option (list string)) : M world KMedoidsAlgorithm :=
  if truthy labels && negb (len_labels labels =? clusters_num)%Z
  then raise ConfigurationError
  else
    medoids <- get_initial_medoids_indices points clusters_num ;;
    ret (mkAlgorithm points clusters_num labels medoids).

Definition prepare_medoids (self : KMedoidsAlgorithm) : M world (list addr) :=
  fun w =>
    (inr (filter (fun point =>
                    existsb (Z.eqb (idx (objs w point))) (medoids_indices self))
                 (points self)), w).

Definition update_clusters_assignment (self : KMedoidsAlgorithm)
  : M world unit :=
  medoids <- prepare_medoids self ;;
  for_each (points self) (fun point => update_cluster_assignment point medoids).

(** [KMedoidsAlgorithm.swap_medoids]: the object after the call comes with
    the outcome, the store is only read. *)
Definition swap_medoids (self : KMedoidsAlgorithm) (old_medoid new_medoid : addr)
    (w : world) : (exn + unit) * KMedoidsAlgorithm :=
  match list_remove (idx (objs w old_medoid)) (medoids_indices self) with
  | None => (inl InvalidSwapError, self)
  | Some removed =>
      (inr tt,
       mkAlgorithm (points self) (clusters_num self) (labels self)
                   (removed ++ [idx (objs w new_medoid)]))
  end.

(** ** The result table *)

(** A value in a table cell. *)
Inductive cell : Type :=
| CInt (z : Z)
| CNum (d : num)
| CStr (s : string)
| CNone
| CNan.

Definition get_labels_mapper (self : KMedoidsAlgorithm) : list (Z * cell) :=
  if truthy (labels self) && (len_labels (labels self) =? clusters_num self)%Z
  then
    dict_of Z.eqb
      (map (fun lm => (snd lm, CStr (fst lm)))
           (combine (match labels self with Some l => l | None => [] end)
                    (medoids_indices self)))
  else
    dict_of Z.eqb
      (map (fun im => (snd im, CInt (fst im)))
           (enumerate_from 0%Z (medoids_indices self))).

(** [point.get_data()]: class [Point] defines [__init__],
    [update_cluster_assignment] and [compute_medoid_replacement_cost] and
    nothing else, no [__getattr__] either, so the lookup of the attribute
    on a point raises. *)
Definition get_data (self : addr) : M world (list (string * cell)) :=
  raise (AttributeError "get_data").

(** [rows[key].append(value)] *)
Definition append_to (rows : list (string * list cell)) (kv : string * cell)
  : M world (list (string * list cell)) :=
  match dict_get String.eqb (fst kv) rows with
  | None => raise (KeyError (fst kv))
  | Some col => ret (dict_set String.eqb (fst kv) (col ++ [snd kv]) rows)
  end.

Section ResultTable.

(** pandas is a library outside the repository.  Its table, the columns
    selected from one, and the four operations that [get_result_df]
    performs on them are parameters:
    - [pd_DataFrame rows] is [pd.DataFrame(rows)];
    - [pd_getitem key df] is [df[key]];
    - [pd_setitem key col df] is the table after [df[key] = col];
    - [pd_replace_inplace key mapper df] is the table after
      [df[key].replace(mapper, inplace=True)]. *)
Variables frame series : Type.
Variable pd_DataFrame : list (string * list cell) -> M world frame.
Variable pd_getitem : string -> frame -> M world series.
Variable pd_setitem : string -> series -> frame -> M world frame.
Variable pd_replace_inplace :
  string -> list (Z * cell) -> frame -> M world frame.

(** [KMedoidsAlgorithm.get_result_df]: the columns are created from the
    record of the first point and filled from the records of all points;
    the table made of them gets the column [cluster], a copy of
    [nearest_medoid] in which the mapper is then applied. *)
Definition get_result_df (self : KMedoidsAlgorithm) : M world frame :=
  match points self with
  | [] => raise IndexError
  | first :: _ =>
      d0 <- get_data first ;;
      rows <- fold_M (fun rows point =>
                        d <- get_data point ;; fold_M append_to d rows)
                     (points self)
                     (dict_of String.eqb (map (fun kv => (fst kv, [])) d0)) ;;
      result <- pd_DataFrame rows ;;
      col <- pd_getitem "nearest_medoid" result ;;
      result <- pd_setitem "cluster" col result ;;
      pd_replace_inplace "cluster" (get_labels_mapper self) result
  end.

End ResultTable.

(** ** Brute-force reference for the two nearest distances *)

(** [a <= b] on numbers. *)
Definition num_le (a b : num) : Prop := num_lt b a = false.

(** The Python expression [u <= v] evaluates to [True]: it does not when
    either side is NaN, and it raises when either side is [None]. *)
Definition py_le_holds (u v : dist_slot) : Prop :=
  match u, v with
  | DNum a, DNum b => num_le a b
  | _, _ => False
  end.

(** Python's [min(a, b)]: [b] when [b < a], else [a]. *)
Definition py_min (a b : num) : num := if num_lt b a then b else a.

(** The distances from [self] to the medoids of a list, in list order. *)
Definition distances_to (w : world) (self : addr) (medoids : list addr)
  : list num :=
  map (fun m => compute_distance (coordinates (objs w self))
                                 (coordinates (objs w m))) medoids.

(** [d] is the [k]-th smallest element (from 0, with multiplicity) of [l]. *)
Definition kth_smallest (k : nat) (d : num) (l : list num) : Prop :=
  exists srt,
    Permutation srt l /\ StronglySorted num_le srt /\ nth_error srt k = Some d.

Fixpoint insert_sorted (x : num) (l : list num) : list num :=
  match l with
  | [] => [x]
  | y :: l' => if num_lt x y then x :: y :: l' else y :: insert_sorted x l'
  end.

Definition brute_force_sort (l : list num) : list num :=
  fold_left (fun acc x => insert_sorted x acc) l [].

(** ** The scan of [update_cluster_assignment]

    After the medoids [seen] have been scanned, the four assignment
    attributes hold the head of the sorted distances to them. *)

Definition points_to (v : medoid_slot) (seen : list addr) : Prop :=
  exists r, v = MRef r /\ In r seen.

Definition scanned (c0 : coords) (cm : addr -> coords) (seen : list addr)
    (p : Point) : Prop :=
  coordinates p = c0 /\
  match brute_force_sort (map (fun m => compute_distance c0 (cm m)) seen) with
  | [] =>
      nearest_medoid p = MNan /\ nearest_medoid_distance p = DNan /\
      second_nearest_medoid p = MNan /\ second_nearest_medoid_distance p = DNan
  | [a] =>
      points_to (nearest_medoid p) seen /\ nearest_medoid_distance p = DNum a /\
      second_nearest_medoid p = MNan /\ second_nearest_medoid_distance p = DNan
  | a :: b :: _ =>
      points_to (nearest_medoid p) seen /\ nearest_medoid_distance p = DNum a /\
      points_to (second_nearest_medoid p) seen /\
      second_nearest_medoid_distance p = DNum b
  end.

(** ** The scan as a function of the point

    One iteration of the loop of [update_cluster_assignment] changes the
    point alone, by the medoid and its distance; a comparison with [None]
    raises and leaves the point as it is. *)

Definition is_better (v : medoid_slot) (d : dist_slot) (distance : num)
  : option bool :=
  match v with
  | MNan => Some true
  | _ => match d with
         | DNum x => Some (num_lt distance x)
         | DNan => Some false
         | DNone => None
         end
  end.

Definition scan_point (p : Point) (medoid : addr) (distance : num) : Point :=
  match is_better (nearest_medoid p) (nearest_medoid_distance p) distance with
  | None => p
  | Some true =>
      mkPoint (idx p) (coordinates p) (MRef medoid) (DNum distance)
              (nearest_medoid p) (nearest_medoid_distance p)
  | Some false =>
      match is_better (second_nearest_medoid p)
                      (second_nearest_medoid_distance p) distance with
      | Some true =>
          mkPoint (idx p) (coordinates p) (nearest_medoid p)
                  (nearest_medoid_distance p) (MRef medoid) (DNum distance)
      | _ => p
      end
  end.

(** The point after the reset. *)
Definition reset_point (p : Point) : Point :=
  mkPoint (idx p) (coordinates p) MNan DNan MNan DNan.

(** The point after the reset and the scan of [medoids], whose coordinates
    are given by [cm]. *)
Definition assign_point (cm : addr -> coords) (p : Point)
    (medoids : list addr) : Point :=
  fold_left (fun q m => scan_point q m (compute_distance (coordinates p) (cm m)))
            medoids (reset_point p).

(** The point at [a] after [update_cluster_assignment] in the world [w]. *)
Definition assigned_point (w : world) (medoids : list addr) (a : addr)
  : Point :=
  if py_in a medoids then
    mkPoint (idx (objs w a)) (coordinates (objs w a)) (MRef a)
            (nearest_medoid_distance (objs w a))
            (second_nearest_medoid (objs w a))
            (second_nearest_medoid_distance (objs w a))
  else assign_point (fun m => coordinates (objs w m)) (objs w a) medoids.

(** What the scan has found after the medoids [seen], with [dist] the
    distance to each: the nearest slot holds the first medoid at the least
    distance, the second slot a medoid at the least distance among the
    other positions. *)
Definition second_tracked (dist : addr -> num) (others : list addr)
    (p : Point) : Prop :=
  match others with
  | [] =>
      second_nearest_medoid p = MNan /\ second_nearest_medoid_distance p = DNan
  | _ =>
      exists m2,
        second_nearest_medoid p = MRef m2 /\
        second_nearest_medoid_distance p = DNum (dist m2) /\
        In m2 others /\
        forall y, In y others -> num_lt (dist y) (dist m2) = false
  end.

Definition tracked (dist : addr -> num) (seen : list addr) (p : Point)
  : Prop :=
  match seen with
  | [] =>
      nearest_medoid p = MNan /\ nearest_medoid_distance p = DNan /\
      second_nearest_medoid p = MNan /\ second_nearest_medoid_distance p = DNan
  | _ =>
      exists l1 m l2,
        seen = l1 ++ m :: l2 /\
        nearest_medoid p = MRef m /\
        nearest_medoid_distance p = DNum (dist m) /\
        (forall y, In y l1 -> num_lt (dist m) (dist y) = true) /\
        (forall y, In y l2 -> num_lt (dist y) (dist m) = false) /\
        second_tracked dist (l1 ++ l2) p
  end.

(** The ids of a list of points. *)
Definition ids_of (w : world) (ps : list addr) : list Z :=
  map (fun p => idx (objs w p)) ps.

(** The invariant of [medoids_indices]: [clusters_num] ids, pairwise
    distinct, all of them ids of points of the collection. *)
Definition medoids_invariant (self : KMedoidsAlgorithm) (w : world) : Prop :=
  Z.of_nat (length (medoids_indices self)) = clusters_num self /\
  NoDup (medoids_indices self) /\
  incl (medoids_indices self) (ids_of w (points self)).

(** [sample] is drawn from [population] without replacement: it is made of
    elements at distinct positions of [population]. *)
Definition sampled_from (sample population : list Z) : Prop :=
  exists rest, Permutation (sample ++ rest) population.

(** A computation that writes no attribute of any object. *)
Definition reads_only {A} (c : M world A) : Prop :=
  forall w, objs (snd (c w)) = objs w.

End Model.

(** ** An instance: integer distances

    Used to run the model on concrete inputs. *)

Lemma Z_ge_lt (a b : Z) : Z.geb a b = negb (Z.ltb a b).
Proof. rewrite Z.geb_leb, Z.leb_antisym. reflexivity. Qed.

Lemma Z_lt_asym (a b : Z) : Z.ltb a b = true -> Z.ltb b a = false.
Proof. rewrite Z.ltb_lt, Z.ltb_ge. lia. Qed.

Lemma Z_lt_negtrans (a b c : Z) :
  Z.ltb a c = true -> Z.ltb a b = true \/ Z.ltb b c = true.
Proof. rewrite !Z.ltb_lt. lia. Qed.

#[export] Instance Z_Number : Number := {|
  num := Z;
  num_lt := Z.ltb;
  num_ge := Z.geb;
  num_sub := Z.sub;
  num_zero := 0%Z;
  num_ge_lt := Z_ge_lt;
  num_lt_asym := Z_lt_asym;
  num_lt_negtrans := Z_lt_negtrans
|}.

(** City-block distance between two coordinate vectors. *)
Definition manhattan (a b : @coords Z_Number) : Z :=
  fold_left (fun acc xy => (acc + Z.abs (snd (fst xy) - snd (snd xy)))%Z)
            (combine a b) 0%Z.

(** The worked example: [A(0,0)], [B(10,0)], [C(5,0)], [D(20,0)] at the
    addresses 0 to 3, with ids 0 to 3, freshly constructed. *)
Definition xy (x y : Z) : @coords Z_Number :=
  [("x"%string, x); ("y"%string, y)].

Definition example_objs (a : addr) : @Point Z_Number :=
  match a with
  | 0 => Point_init 0%Z (xy 0 0)
  | 1 => Point_init 1%Z (xy 10 0)
  | 2 => Point_init 2%Z (xy 5 0)
  | _ => Point_init 3%Z (xy 20 0)
  end.

Definition example_world : @world Z_Number :=
  mkWorld example_objs [] [].

(** The example world with a random source. *)
Definition seeded_world : @world Z_Number :=
  mkWorld example_objs [] [7; 5; 3].

(** [C] assigned against the single medoid [A]. *)
Definition single_medoid_world : @world Z_Number :=
  snd (update_cluster_assignment manhattan 2 [0] example_world).

(** The orchestrator of the worked example, with medoids [A] and [B]. *)
Definition example_algorithm : KMedoidsAlgorithm :=
  mkAlgorithm [0; 1; 2; 3] 2 None [0%Z; 1%Z].

(** Assignment of all points, then the swap of [B] for [C], then the
    assignment of all points again. *)
Definition assigned_world : @world Z_Number :=
  snd (update_clusters_assignment manhattan example_algorithm example_world).

Definition swapped_algorithm : KMedoidsAlgorithm :=
  snd (swap_medoids example_algorithm 1 2 assigned_world).

Definition reassigned_world : @world Z_Number :=
  snd (update_clusters_assignment manhattan swapped_algorithm assigned_world).

(** An orchestrator of the same points without medoids. *)
Definition empty_algorithm : KMedoidsAlgorithm :=
  mkAlgorithm [0; 1; 2; 3] 0 None [].

(** The same orchestrator with labels. *)
Definition labelled_algorithm : KMedoidsAlgorithm :=
  mkAlgorithm [0; 1; 2; 3] 2 (Some ["left"; "right"]%string) [0%Z; 1%Z].

(** * Proofs *)

Unset Implicit Arguments.

Section PointFacts.

Context {N : Number}.
Variable compute_distance : coords -> coords -> num.

(** ** The brute-force sort is a sort *)

Lemma num_le_trans (a b c : num) : num_le a b -> num_le b c -> num_le a c.
Proof.
  unfold num_le. intros Hab Hbc.
  destruct (num_lt c a) eqn:Hca; [|reflexivity].
  destruct (num_lt_negtrans c b a Hca); congruence.
Qed.

Lemma num_lt_le (a b : num) : num_lt a b = true -> num_le a b.
Proof. apply num_lt_asym. Qed.

Lemma insert_sorted_perm (x : num) (l : list num) :
  Permutation (insert_sorted x l) (x :: l).
Proof.
  induction l as [|y l IH]; simpl.
  - apply Permutation_refl.
  - destruct (num_lt x y).
    + apply Permutation_refl.
    + eapply perm_trans; [apply perm_skip, IH | apply perm_swap].
Qed.

Lemma insert_sorted_sorted (x : num) (l : list num) :
  StronglySorted num_le l -> StronglySorted num_le (insert_sorted x l).
Proof.
  induction 1 as [|y l Hs IH Hall]; simpl.
  - repeat constructor.
  - destruct (num_lt x y) eqn:Hxy.
    + constructor; [constructor; assumption|].
      constructor; [apply num_lt_le; assumption|].
      eapply Forall_impl; [|exact Hall].
      intros z Hz. eapply num_le_trans; [apply num_lt_le; eassumption|exact Hz].
    + constructor; [exact IH|].
      eapply Permutation_Forall;
        [apply Permutation_sym, insert_sorted_perm|].
      constructor; assumption.
Qed.

Lemma brute_force_sort_snoc (l : list num) (x : num) :
  brute_force_sort (l ++ [x]) = insert_sorted x (brute_force_sort l).
Proof. unfold brute_force_sort. rewrite fold_left_app. reflexivity. Qed.

Lemma brute_force_sort_perm (l : list num) :
  Permutation (brute_force_sort l) l.
Proof.
  induction l as [|x l IH] using rev_ind.
  - apply Permutation_refl.
  - rewrite brute_force_sort_snoc.
    eapply perm_trans; [apply insert_sorted_perm|].
    eapply perm_trans; [apply perm_skip, IH|].
    apply Permutation_cons_append.
Qed.

Lemma brute_force_sort_sorted (l : list num) :
  StronglySorted num_le (brute_force_sort l).
Proof.
  induction l as [|x l IH] using rev_ind.
  - constructor.
  - rewrite brute_force_sort_snoc. apply insert_sorted_sorted, IH.
Qed.

Lemma brute_force_kth (k : nat) (d : num) (l : list num) :
  nth_error (brute_force_sort l) k = Some d -> kth_smallest k d l.
Proof.
  intros H. exists (brute_force_sort l).
  auto using brute_force_sort_perm, brute_force_sort_sorted.
Qed.

Lemma points_to_snoc (v : medoid_slot) (seen : list addr) (m : addr) :
  points_to v seen -> points_to v (seen ++ [m]).
Proof.
  intros (r & -> & Hin). exists r. split; [reflexivity|].
  apply in_or_app. left. exact Hin.
Qed.

Lemma points_to_last (seen : list addr) (m : addr) :
  points_to (MRef m) (seen ++ [m]).
Proof.
  exists m. split; [reflexivity|]. apply in_or_app. right. left. reflexivity.
Qed.

Lemma points_to_not_nan (v : medoid_slot) (seen : list addr) :
  points_to v seen -> is_nan v = false.
Proof. intros (r & -> & _). reflexivity. Qed.

Ltac frame_others :=
  let a := fresh "a" in
  let Ha := fresh "Ha" in
  intros a Ha; simpl; apply Nat.eqb_neq in Ha; rewrite ?Ha; reflexivity.

Ltac read_slots :=
  repeat (cbn beta iota zeta delta [fst snd objs ret py_lt is_nan];
          repeat match goal with
                 | H : _ (objs _ _) = _ |- _ => rewrite H
                 | H : is_nan _ = _ |- _ => rewrite H
                 end).

Ltac finish_scan :=
  eexists; split; [reflexivity|];
  simpl; rewrite ?Nat.eqb_refl; simpl;
  repeat split; auto using points_to_last, points_to_snoc;
  try frame_others.

Lemma scan_medoid_step (c0 : coords) (cm : addr -> coords)
    (self m : addr) (seen : list addr) (w : world) :
  m <> self ->
  coordinates (objs w m) = cm m ->
  scanned compute_distance c0 cm seen (objs w self) ->
  exists w',
    scan_medoid compute_distance self m w = (inr tt, w') /\
    scanned compute_distance c0 cm (seen ++ [m]) (objs w' self) /\
    idx (objs w' self) = idx (objs w self) /\
    (forall a, a <> self -> objs w' a = objs w a) /\
    distance_calls w' = distance_calls w ++ [(c0, cm m)] /\
    rng w' = rng w.
Proof.
  intros Hne Hcm [Hc Hs].
  unfold scanned in *. rewrite map_app. simpl map. rewrite brute_force_sort_snoc.
  unfold scan_medoid, bind, get, call_compute_distance.
  cbn [objs fst snd]. rewrite Hc, Hcm.
  set (d := compute_distance c0 (cm m)).
  destruct (brute_force_sort (map (fun m0 => compute_distance c0 (cm m0)) seen))
    as [|a [|b rest]] eqn:Hsort; simpl insert_sorted;
    destruct Hs as (H1 & H2 & H3 & H4);
    try (apply points_to_not_nan in H1 as H1');
    try (apply points_to_not_nan in H3 as H3').
  - read_slots. finish_scan.
  - read_slots. destruct (num_lt d a) eqn:Hda.
    + read_slots. finish_scan.
    + read_slots. finish_scan.
  - read_slots. destruct (num_lt d a) eqn:Hda.
    + read_slots. finish_scan.
    + read_slots. destruct (num_lt d b) eqn:Hdb.
      * read_slots. finish_scan.
      * read_slots. finish_scan.
Qed.

Lemma scan_loop (c0 : coords) (cm : addr -> coords) (self : addr)
    (medoids : list addr) :
  ~ In self medoids ->
  forall (seen : list addr) (w : world),
    (forall m, In m medoids -> coordinates (objs w m) = cm m) ->
    scanned compute_distance c0 cm seen (objs w self) ->
    exists w',
      for_each medoids (scan_medoid compute_distance self) w = (inr tt, w') /\
      scanned compute_distance c0 cm (seen ++ medoids) (objs w' self) /\
      idx (objs w' self) = idx (objs w self) /\
      (forall a, a <> self -> objs w' a = objs w a) /\
      distance_calls w' =
        distance_calls w ++ map (fun m => (c0, cm m)) medoids /\
      rng w' = rng w.
Proof.
  induction medoids as [|m medoids IH]; intros Hnot seen w Hcm Hs.
  - exists w. rewrite !app_nil_r. simpl.
    split; [reflexivity|]. split; [exact Hs|]. auto.
  - assert (Hm : m <> self) by (intros ->; apply Hnot; left; reflexivity).
    destruct (@scan_medoid_step c0 cm self m seen w Hm
                (Hcm m (or_introl eq_refl)) Hs)
      as (w1 & Hrun & Hs1 & Hidx1 & Hfr1 & Hcalls1 & Hrng1).
    destruct (IH (fun H => Hnot (or_intror H)) (seen ++ [m]) w1)
      as (w2 & Hrun2 & Hs2 & Hidx2 & Hfr2 & Hcalls2 & Hrng2).
    + intros m' Hin. rewrite Hfr1; [apply Hcm; right; exact Hin|].
      intros ->. apply Hnot. right. exact Hin.
    + exact Hs1.
    + exists w2. simpl for_each. unfold bind at 1. rewrite Hrun, Hrun2.
      rewrite <- app_assoc in Hs2. simpl in Hs2.
      split; [reflexivity|]. split; [exact Hs2|].
      repeat split.
      * congruence.
      * intros a Ha. rewrite Hfr2, Hfr1; auto.
      * rewrite Hcalls2, Hcalls1, <- app_assoc. reflexivity.
      * congruence.
Qed.

Lemma py_in_true (self : addr) (medoids : list addr) :
  py_in self medoids = true <-> In self medoids.
Proof.
  unfold py_in. rewrite existsb_exists. split.
  - intros (x & Hin & Heq). apply Nat.eqb_eq in Heq. subst. exact Hin.
  - intros Hin. exists self. split; [exact Hin | apply Nat.eqb_refl].
Qed.

Lemma py_in_false (self : addr) (medoids : list addr) :
  py_in self medoids = false <-> ~ In self medoids.
Proof.
  rewrite <- py_in_true. destruct (py_in self medoids); split; congruence.
Qed.

(** The non-medoid path: reset, then the scan of every medoid. *)
Lemma update_non_medoid (w : world) (self : addr) (medoids : list addr) :
  ~ In self medoids ->
  exists w',
    update_cluster_assignment compute_distance self medoids w = (inr tt, w') /\
    scanned compute_distance (coordinates (objs w self)) (fun m => coordinates (objs w m))
            medoids (objs w' self) /\
    idx (objs w' self) = idx (objs w self) /\
    (forall a, a <> self -> objs w' a = objs w a) /\
    distance_calls w' =
      distance_calls w ++
      map (fun m => (coordinates (objs w self), coordinates (objs w m)))
          medoids /\
    rng w' = rng w.
Proof.
  intros Hnot. unfold update_cluster_assignment.
  rewrite (proj2 (py_in_false self medoids) Hnot).
  set (w0 := snd (set_second_nearest_medoid_distance self DNan
               (snd (set_second_nearest_medoid self MNan
                  (snd (set_nearest_medoid_distance self DNan
                     (snd (set_nearest_medoid self MNan w)))))))).
  destruct (@scan_loop (coordinates (objs w self))
              (fun m => coordinates (objs w m)) self medoids Hnot [] w0)
    as (w' & Hrun & Hs & Hidx & Hfr & Hcalls & Hrng).
  - intros m Hin. subst w0. simpl.
    assert (Hm : (m =? self)%nat = false).
    { apply Nat.eqb_neq. intros ->. exact (Hnot Hin). }
    rewrite !Hm. reflexivity.
  - subst w0. unfold scanned. simpl. rewrite !Nat.eqb_refl. simpl. auto.
  - exists w'. split; [|split; [exact Hs|]].
    + unfold bind. simpl. exact Hrun.
    + subst w0. simpl in *. rewrite !Nat.eqb_refl in Hidx. simpl in Hidx.
      split; [exact Hidx|]. split; [|split; assumption].
      intros a Ha. rewrite (Hfr a Ha).
      apply Nat.eqb_neq in Ha. rewrite !Ha. reflexivity.
Qed.

(** The medoid path: one assignment, nothing else. *)
Lemma update_medoid (w : world) (self : addr) (medoids : list addr) :
  In self medoids ->
  exists w',
    update_cluster_assignment compute_distance self medoids w = (inr tt, w') /\
    nearest_medoid (objs w' self) = MRef self /\
    nearest_medoid_distance (objs w' self) =
      nearest_medoid_distance (objs w self) /\
    second_nearest_medoid (objs w' self) = second_nearest_medoid (objs w self) /\
    second_nearest_medoid_distance (objs w' self) =
      second_nearest_medoid_distance (objs w self) /\
    distance_calls w' = distance_calls w /\
    idx (objs w' self) = idx (objs w self) /\
    (forall a, a <> self -> objs w' a = objs w a).
Proof.
  intros Hin. unfold update_cluster_assignment.
  rewrite (proj2 (py_in_true self medoids) Hin).
  eexists. split; [reflexivity|]. simpl. rewrite Nat.eqb_refl. simpl.
  repeat split. frame_others.
Qed.

(** *** Assignment of every point *)

Lemma brute_force_sort_nil (l : list num) :
  brute_force_sort l = [] -> l = [].
Proof.
  intros H. apply Permutation_nil.
  rewrite <- H. apply brute_force_sort_perm.
Qed.

Lemma update_assigns (w : world) (self : addr) (medoids : list addr) :
  medoids <> [] ->
  exists w',
    update_cluster_assignment compute_distance self medoids w = (inr tt, w') /\
    points_to (nearest_medoid (objs w' self)) medoids /\
    idx (objs w' self) = idx (objs w self) /\
    (forall a, a <> self -> objs w' a = objs w a).
Proof.
  intros Hne. destruct (in_dec Nat.eq_dec self medoids) as [Hin|Hnot].
  - destruct (update_medoid w self medoids Hin)
      as (w' & Hrun & Hnm & _ & _ & _ & _ & Hidx & Hfr).
    exists w'. repeat split; try assumption.
    exists self. auto.
  - destruct (update_non_medoid w self medoids Hnot)
      as (w' & Hrun & [_ Hs] & Hidx & Hfr & _).
    exists w'. repeat split; try assumption.
    destruct (brute_force_sort _) as [|a [|b rest]] eqn:Hsort.
    + apply brute_force_sort_nil, map_eq_nil in Hsort. contradiction.
    + apply Hs.
    + apply Hs.
Qed.

Lemma update_all_assigns (medoids : list addr) :
  medoids <> [] ->
  forall (ps : list addr) (w : world),
  exists w',
    for_each ps (fun point =>
                   update_cluster_assignment compute_distance point medoids) w
      = (inr tt, w') /\
    (forall a, idx (objs w' a) = idx (objs w a)) /\
    (forall a,
       In a ps \/ points_to (nearest_medoid (objs w a)) medoids ->
       points_to (nearest_medoid (objs w' a)) medoids).
Proof.
  intros Hne. induction ps as [|p ps IH]; intros w.
  - exists w. split; [reflexivity|]. split; [reflexivity|].
    intros a [[]|H]. exact H.
  - destruct (update_assigns w p medoids Hne)
      as (w1 & Hrun1 & Hp & Hidx1 & Hfr1).
    destruct (IH w1) as (w2 & Hrun2 & Hidx2 & Hkeep).
    exists w2. cbn [for_each]. unfold bind at 1. rewrite Hrun1.
    split; [exact Hrun2|]. split.
    + intros a. rewrite Hidx2.
      destruct (Nat.eq_dec a p) as [->|Ha]; [exact Hidx1|].
      rewrite (Hfr1 a Ha). reflexivity.
    + intros a Ha. apply Hkeep.
      destruct (Nat.eq_dec a p) as [->|Hap]; [right; exact Hp|].
      destruct Ha as [[Heq|Hin]|Hold];
        [congruence | left; exact Hin | right].
      rewrite (Hfr1 a Hap). exact Hold.
Qed.

(** After [update_clusters_assignment], when some point is a medoid, every
    point has for nearest medoid a point whose id is in
    [medoids_indices]. *)
Lemma update_clusters_assignment_assigns
    (self : KMedoidsAlgorithm) (w : world) :
  (exists p, In p (points self) /\
             In (idx (objs w p)) (medoids_indices self)) ->
  exists w',
    update_clusters_assignment compute_distance self w = (inr tt, w') /\
    forall p, In p (points self) ->
      exists m, nearest_medoid (objs w' p) = MRef m /\
                In (idx (objs w' m)) (medoids_indices self).
Proof.
  intros (p0 & Hp0 & Hm0).
  unfold update_clusters_assignment, bind, prepare_medoids.
  set (medoids := filter _ (points self)).
  assert (Hne : medoids <> []).
  { intros Hnil. assert (Hin : In p0 medoids).
    { apply filter_In. split; [exact Hp0|]. apply existsb_exists.
      exists (idx (objs w p0)). split; [exact Hm0 | apply Z.eqb_refl]. }
    rewrite Hnil in Hin. exact Hin. }
  destruct (update_all_assigns medoids Hne (points self) w)
    as (w' & Hrun & Hidx & Hall).
  exists w'. split; [exact Hrun|].
  intros p Hp. destruct (Hall p (or_introl Hp)) as (m & Hm & Hin).
  exists m. split; [exact Hm|]. rewrite Hidx.
  apply filter_In in Hin. destruct Hin as [_ Hex].
  apply existsb_exists in Hex. destruct Hex as (x & Hx & Heq).
  apply Z.eqb_eq in Heq. rewrite Heq. exact Hx.
Qed.

Lemma sorted_head_le (a b : num) (l : list num) :
  StronglySorted num_le (a :: b :: l) -> num_le a b.
Proof.
  intros H. inversion H as [|x l' _ Hall]; subst.
  inversion Hall; assumption.
Qed.

Lemma sort_length (self : addr) (w : world) (medoids : list addr) :
  length (brute_force_sort (distances_to compute_distance w self medoids)) =
  length medoids.
Proof.
  rewrite (Permutation_length (brute_force_sort_perm _)).
  unfold distances_to. apply length_map.
Qed.

Lemma two_nearest_after_scan
    (w : world) (self : addr) (medoids : list addr) :
  ~ In self medoids ->
  medoids <> [] ->
  exists w',
    update_cluster_assignment compute_distance self medoids w = (inr tt, w') /\
    (exists m,
       nearest_medoid_distance (objs w' self) = DNum m /\
       kth_smallest 0 m (distances_to compute_distance w self medoids)) /\
    (length medoids = 1 ->
       second_nearest_medoid (objs w' self) = MNan /\
       second_nearest_medoid_distance (objs w' self) = DNan) /\
    (2 <= length medoids ->
       (exists s,
          second_nearest_medoid_distance (objs w' self) = DNum s /\
          kth_smallest 1 s (distances_to compute_distance w self medoids)) /\
       py_le_holds (nearest_medoid_distance (objs w' self))
                   (second_nearest_medoid_distance (objs w' self))).
Proof.
  intros Hnot Hne.
  destruct (update_non_medoid w self medoids Hnot) as (w' & Hrun & [_ Hs] & _).
  exists w'. split; [exact Hrun|].
  pose proof (sort_length self w medoids) as Hlen.
  pose proof (brute_force_sort_sorted
                (distances_to compute_distance w self medoids)) as Hsorted.
  pose proof (brute_force_kth 0) as K0.
  pose proof (brute_force_kth 1) as K1.
  specialize (fun d => K0 d (distances_to compute_distance w self medoids)).
  specialize (fun d => K1 d (distances_to compute_distance w self medoids)).
  unfold distances_to in *.
  destruct (brute_force_sort _) as [|a [|b rest]].
  - destruct medoids; [congruence | discriminate].
  - destruct Hs as (_ & H2 & H3 & H4). simpl in Hlen.
    split; [exists a; split; [exact H2 | apply K0; reflexivity]|].
    split; [auto | intros Hk; lia].
  - destruct Hs as (_ & H2 & _ & H4). simpl in Hlen.
    split; [exists a; split; [exact H2 | apply K0; reflexivity]|].
    split; [intros Hk; lia|]. intros _. split.
    + exists b. split; [exact H4 | apply K1; reflexivity].
    + rewrite H2, H4. simpl. eapply sorted_head_le, Hsorted.
Qed.

(** C2, as amended: for a point that is not in a non-empty medoid list,
    [update_cluster_assignment] returns and leaves in
    [nearest_medoid_distance] the smallest of the distances from the point
    to the medoids of the list; with exactly one medoid the second-nearest
    attributes stay at the NaN written by the reset; with two or more,
    [second_nearest_medoid_distance] is the second smallest of the distances
    and [nearest_medoid_distance <= second_nearest_medoid_distance]. *)
Theorem update_cluster_assignment_two_nearest
    (w : world) (self : addr) (medoids : list addr) :
  ~ In self medoids ->
  medoids <> [] ->
  exists w',
    update_cluster_assignment compute_distance self medoids w = (inr tt, w') /\
    (exists m,
       nearest_medoid_distance (objs w' self) = DNum m /\
       kth_smallest 0 m (distances_to compute_distance w self medoids)) /\
    (length medoids = 1 ->
       second_nearest_medoid (objs w' self) = MNan /\
       second_nearest_medoid_distance (objs w' self) = DNan) /\
    (2 <= length medoids ->
       (exists s,
          second_nearest_medoid_distance (objs w' self) = DNum s /\
          kth_smallest 1 s (distances_to compute_distance w self medoids)) /\
       py_le_holds (nearest_medoid_distance (objs w' self))
                   (second_nearest_medoid_distance (objs w' self))).
Proof. exact (two_nearest_after_scan w self medoids). Qed.

(** ** Point.compute_medoid_replacement_cost *)

(** The value returned for a point outside the medoid list, by the
    attributes it reads. *)
Lemma cost_non_medoid (w : world) (self old_medoid new_medoid : addr)
    (medoids : list addr) (n : num) :
  ~ In self medoids ->
  nearest_medoid_distance (objs w self) = DNum n ->
  let d_new := compute_distance (coordinates (objs w self))
                                (coordinates (objs w new_medoid)) in
  let result := fst (compute_medoid_replacement_cost compute_distance
                       self old_medoid new_medoid medoids w) in
  (nearest_medoid (objs w self) = MRef old_medoid ->
   forall s, second_nearest_medoid_distance (objs w self) = DNum s ->
             result = inr (DNum (num_sub (py_min s d_new) n))) /\
  (nearest_medoid (objs w self) = MRef old_medoid ->
   second_nearest_medoid_distance (objs w self) = DNan ->
   result = inr (DNum (num_sub d_new n))) /\
  (nearest_medoid (objs w self) <> MRef old_medoid ->
   (num_lt d_new n = true -> result = inr (DNum (num_sub d_new n))) /\
   (num_ge d_new n = true -> result = inr (DNum num_zero))).
Proof.
  intros Hnot Hn d_new result. subst result.
  unfold compute_medoid_replacement_cost.
  rewrite (proj2 (py_in_false self medoids) Hnot).
  unfold bind, get, call_compute_distance. cbn [objs fst snd].
  fold d_new.
  split; [|split].
  - intros Hnm s Hs. rewrite Hnm. cbn [py_eq_point].
    rewrite Nat.eqb_refl. cbn [objs]. rewrite Hs. cbn [py_ge ret objs].
    unfold py_min. rewrite num_ge_lt.
    destruct (num_lt d_new s); cbn [negb objs]; rewrite Hn; reflexivity.
  - intros Hnm Hs. rewrite Hnm. cbn [py_eq_point].
    rewrite Nat.eqb_refl. cbn [objs]. rewrite Hs. cbn [py_ge ret objs].
    rewrite Hn. reflexivity.
  - intros Hnm.
    assert (Heq : py_eq_point (nearest_medoid (objs w self)) old_medoid = false).
    { destruct (nearest_medoid (objs w self)) as [| |a]; try reflexivity.
      simpl. apply Nat.eqb_neq. intros ->. apply Hnm. reflexivity. }
    rewrite Heq. cbn [objs]. rewrite Hn. cbn [py_ge ret]. rewrite num_ge_lt.
    split; intros H; rewrite H; reflexivity.
Qed.

(** C1: when the attributes of a point are those an earlier
    [update_cluster_assignment] of it against the current medoid list has
    computed (in any state [w0]; nothing is asked of the other points, so
    the state [w] may be the one after the pass over all points, or after
    other cost computations), a list which contains [old_medoid] and not
    [new_medoid] (and has two medoids or more when the point's nearest
    medoid is [old_medoid]), the cost is 0 for a point of the list;
    otherwise, with
    [d_new] the distance from the point to [new_medoid], it is
    [min(second_nearest_medoid_distance, d_new) - nearest_medoid_distance]
    when the nearest medoid is [old_medoid], and else
    [d_new - nearest_medoid_distance] when [d_new < nearest_medoid_distance]
    and 0 when [d_new >= nearest_medoid_distance]. *)
Theorem compute_medoid_replacement_cost_policy
    (w0 w : world) (self old_medoid new_medoid : addr) (medoids : list addr) :
  In old_medoid medoids ->
  ~ In new_medoid medoids ->
  objs w self =
    objs (snd (update_cluster_assignment compute_distance self medoids w0))
         self ->
  (nearest_medoid (objs w self) = MRef old_medoid -> 2 <= length medoids) ->
  let d_new := compute_distance (coordinates (objs w self))
                                (coordinates (objs w new_medoid)) in
  let result := fst (compute_medoid_replacement_cost compute_distance
                       self old_medoid new_medoid medoids w) in
  (In self medoids -> result = inr (DNum num_zero)) /\
  (~ In self medoids ->
   exists n,
     nearest_medoid_distance (objs w self) = DNum n /\
     (nearest_medoid (objs w self) = MRef old_medoid ->
      exists s,
        second_nearest_medoid_distance (objs w self) = DNum s /\
        result = inr (DNum (num_sub (py_min s d_new) n))) /\
     (nearest_medoid (objs w self) <> MRef old_medoid ->
      (num_lt d_new n = true -> result = inr (DNum (num_sub d_new n))) /\
      (num_ge d_new n = true -> result = inr (DNum num_zero)))).
Proof.
  intros Hold Hnew Hfields Hk d_new result. split.
  - intros Hin. subst result. unfold compute_medoid_replacement_cost.
    rewrite (proj2 (py_in_true self medoids) Hin). reflexivity.
  - intros Hnot.
    assert (Hne : medoids <> []) by (intros ->; exact Hold).
    destruct (two_nearest_after_scan w0 self medoids Hnot Hne)
      as (w' & Hrun' & (n & Hn & _) & _ & H2).
    rewrite Hrun' in Hfields. cbn [snd] in Hfields.
    rewrite <- Hfields in Hn, H2.
    exists n. split; [exact Hn|].
    destruct (cost_non_medoid w self old_medoid new_medoid medoids n Hnot Hn)
      as (Hmin & _ & Hother).
    split; [|exact Hother].
    intros Hnm. destruct (H2 (Hk Hnm)) as ((s & Hs & _) & _).
    exists s. split; [exact Hs | exact (Hmin Hnm s Hs)].
Qed.

(** C10: for a point outside the medoid list whose nearest medoid is
    [old_medoid] and whose second-nearest attributes still hold the NaN of
    the reset (a single medoid was scanned), the cost is
    [d_new - nearest_medoid_distance]: [d_new >= nan] is false, so the
    fallback to the second nearest is not taken. *)
Theorem cost_single_medoid
    (w : world) (self old_medoid new_medoid : addr) (medoids : list addr)
    (n : num) :
  ~ In self medoids ->
  nearest_medoid (objs w self) = MRef old_medoid ->
  nearest_medoid_distance (objs w self) = DNum n ->
  second_nearest_medoid (objs w self) = MNan ->
  second_nearest_medoid_distance (objs w self) = DNan ->
  fst (compute_medoid_replacement_cost compute_distance
         self old_medoid new_medoid medoids w) =
  inr (DNum (num_sub (compute_distance (coordinates (objs w self))
                                       (coordinates (objs w new_medoid))) n)).
Proof.
  intros Hnot Hnm Hn _ Hs.
  destruct (cost_non_medoid w self old_medoid new_medoid medoids n Hnot Hn) as (_ & H & _).
  exact (H Hnm Hs).
Qed.

Lemma reads_only_ret {A} (x : A) : reads_only (ret x).
Proof. intros w. reflexivity. Qed.

Lemma reads_only_raise {A} (e : exn) : reads_only (@raise world A e).
Proof. intros w. reflexivity. Qed.

Lemma reads_only_bind {A B} (c : M world A) (k : A -> M world B) :
  reads_only c -> (forall x, reads_only (k x)) -> reads_only (bind c k).
Proof.
  intros Hc Hk w. unfold bind. specialize (Hc w).
  destruct (c w) as [[e|x] w']; simpl in *; [exact Hc|].
  rewrite Hk. exact Hc.
Qed.

Lemma reads_only_get {A} (f : Point -> A) (self : addr) :
  reads_only (get f self).
Proof. intros w. reflexivity. Qed.

Lemma reads_only_distance (a b : coords) :
  reads_only (call_compute_distance compute_distance a b).
Proof. intros w. reflexivity. Qed.

Lemma reads_only_ge (d : num) (v : dist_slot) : reads_only (py_ge d v).
Proof. destruct v; intros w; reflexivity. Qed.

Lemma reads_only_sub (u v : dist_slot) : reads_only (py_sub u v).
Proof. destruct u, v; intros w; reflexivity. Qed.

Create HintDb reads.

#[local] Hint Resolve reads_only_ret reads_only_raise reads_only_get
  reads_only_distance reads_only_ge reads_only_sub : reads.

Ltac reads_only_tac :=
  repeat first
    [ apply reads_only_bind; [|intros ?]
    | match goal with |- reads_only (if ?b then _ else _) => destruct b end
    | solve [auto with reads] ].

Lemma cost_reads_only (self old_medoid new_medoid : addr)
    (medoids : list addr) :
  reads_only (compute_medoid_replacement_cost compute_distance
                self old_medoid new_medoid medoids).
Proof. unfold compute_medoid_replacement_cost. reads_only_tac. Qed.

(** C4: [compute_medoid_replacement_cost] changes no attribute of any
    point, whatever its arguments and whether it returns or raises. *)
Theorem compute_medoid_replacement_cost_frame
    (w : world) (self old_medoid new_medoid : addr) (medoids : list addr)
    (a : addr) :
  let w' := snd (compute_medoid_replacement_cost compute_distance
                   self old_medoid new_medoid medoids w) in
  idx (objs w' a) = idx (objs w a) /\
  coordinates (objs w' a) = coordinates (objs w a) /\
  nearest_medoid (objs w' a) = nearest_medoid (objs w a) /\
  nearest_medoid_distance (objs w' a) = nearest_medoid_distance (objs w a) /\
  second_nearest_medoid (objs w' a) = second_nearest_medoid (objs w a) /\
  second_nearest_medoid_distance (objs w' a) =
    second_nearest_medoid_distance (objs w a).
Proof.
  cbv zeta. rewrite cost_reads_only. repeat split.
Qed.

End PointFacts.

Section DictFacts.

Variables (K V : Type) (eqb : K -> K -> bool).
Hypothesis eqb_eq : forall a b, eqb a b = true <-> a = b.

Lemma eqb_same (a : K) : eqb a a = true.
Proof. apply eqb_eq. reflexivity. Qed.

Lemma eqb_differ (a b : K) : a <> b -> eqb a b = false.
Proof.
  intros H. destruct (eqb a b) eqn:E; [|reflexivity].
  apply eqb_eq in E. contradiction.
Qed.

Lemma dict_set_fresh (k : K) (v : V) (d : list (K * V)) :
  ~ In k (map fst d) -> dict_set eqb k v d = d ++ [(k, v)].
Proof.
  induction d as [|[k' v'] d IH]; simpl; intros Hnot; [reflexivity|].
  rewrite eqb_differ by (intros ->; apply Hnot; left; reflexivity).
  rewrite IH; [reflexivity|]. intros H. apply Hnot. right. exact H.
Qed.

Lemma dict_fill_nodup (l acc : list (K * V)) :
  NoDup (map fst (acc ++ l)) ->
  fold_left (fun d kv => dict_set eqb (fst kv) (snd kv) d) l acc = acc ++ l.
Proof.
  revert acc. induction l as [|[k v] l IH]; intros acc Hnd; simpl.
  - rewrite app_nil_r. reflexivity.
  - rewrite dict_set_fresh.
    + rewrite IH; rewrite <- app_assoc; [reflexivity | exact Hnd].
    + rewrite map_app in Hnd. simpl in Hnd.
      apply NoDup_remove_2 in Hnd. intros H. apply Hnd.
      apply in_or_app. left. exact H.
Qed.

Lemma dict_of_nodup (l : list (K * V)) :
  NoDup (map fst l) -> dict_of eqb l = l.
Proof. intros H. apply (dict_fill_nodup l []). exact H. Qed.

End DictFacts.

Section OrchestratorFacts.

Context {N : Number}.

(** ** Library functions *)

Lemma list_remove_none (x : Z) (l : list Z) :
  ~ In x l -> list_remove x l = None.
Proof.
  induction l as [|y l IH]; simpl; intros Hnot; [reflexivity|].
  destruct (Z.eqb_spec y x) as [->|Hne]; [exfalso; auto|].
  rewrite IH; auto.
Qed.

Lemma list_remove_some (x : Z) (l : list Z) :
  In x l ->
  exists l1 l2,
    l = l1 ++ x :: l2 /\ ~ In x l1 /\ list_remove x l = Some (l1 ++ l2).
Proof.
  induction l as [|y l IH]; simpl; intros Hin; [contradiction|].
  destruct (Z.eqb_spec y x) as [->|Hne].
  - exists [], l. simpl. auto.
  - destruct Hin as [Heq|Hin]; [congruence|].
    destruct (IH Hin) as (l1 & l2 & -> & Hnot & ->).
    exists (y :: l1), l2. simpl. repeat split.
    intros [H|H]; auto.
Qed.

Lemma map_M_get {A} (f : Point -> A) (l : list addr) (w : world) :
  map_M (get f) l w = (inr (map (fun a => f (objs w a)) l), w).
Proof.
  induction l as [|a l IH]; [reflexivity|].
  simpl. unfold bind at 1. unfold get at 1. unfold bind. rewrite IH.
  reflexivity.
Qed.

Lemma randbelow_run (n : nat) (w : world) :
  0 < n ->
  exists j w',
    randbelow n w = (inr j, w') /\ j < n /\
    objs w' = objs w /\ distance_calls w' = distance_calls w.
Proof.
  intros Hn. unfold randbelow. destruct (rng w) as [|r rs].
  - exists 0, w. auto.
  - eexists _, _. split; [reflexivity|]. simpl.
    split; [apply Nat.mod_upper_bound; lia | auto].
Qed.

Lemma nth_error_take_out {A} (l : list A) (j : nat) (x : A) :
  nth_error l j = Some x ->
  Permutation (x :: firstn j l ++ skipn (S j) l) l /\
  length (firstn j l ++ skipn (S j) l) = pred (length l).
Proof.
  revert j. induction l as [|y l IH]; intros [|j] H; simpl in *;
    try discriminate.
  - injection H as ->. split; [apply Permutation_refl | reflexivity].
  - destruct (IH j H) as [Hp Hl]. split.
    + eapply perm_trans; [apply perm_swap|]. apply perm_skip. exact Hp.
    + rewrite Hl. destruct l; [destruct j; discriminate | reflexivity].
Qed.

Lemma draw_run (k : nat) :
  forall (pool : list Z) (w : world),
    k <= length pool ->
    exists sample w',
      draw k pool w = (inr sample, w') /\
      length sample = k /\ sampled_from sample pool /\
      objs w' = objs w /\ distance_calls w' = distance_calls w.
Proof.
  induction k as [|k IH]; intros pool w Hk.
  - exists [], w. simpl. repeat split.
    exists pool. apply Permutation_refl.
  - destruct (randbelow_run (length pool) w) as (j & w1 & Hr & Hj & Ho & Hc);
      [lia|].
    destruct (nth_error pool j) as [x|] eqn:Hx;
      [|apply nth_error_None in Hx; lia].
    destruct (nth_error_take_out pool j x Hx) as [Hperm Hlen].
    destruct (IH (firstn j pool ++ skipn (S j) pool) w1)
      as (rest & w2 & Hd & Hl & (others & Hs) & Ho2 & Hc2); [lia|].
    exists (x :: rest), w2. cbn [draw]. unfold bind. rewrite Hr, Hx, Hd.
    repeat split; try congruence.
    + simpl. congruence.
    + exists others. simpl.
      eapply perm_trans; [apply perm_skip; exact Hs | exact Hperm].
Qed.

Lemma random_sample_in_range (population : list Z) (k : Z) (w : world) :
  (0 <= k <= Z.of_nat (length population))%Z ->
  exists sample w',
    random_sample population k w = (inr sample, w') /\
    Z.of_nat (length sample) = k /\ sampled_from sample population /\
    objs w' = objs w /\ distance_calls w' = distance_calls w.
Proof.
  intros Hk. unfold random_sample.
  replace ((0 <=? k) && (k <=? Z.of_nat (length population)))%Z with true
    by (symmetry; apply andb_true_iff; split; apply Z.leb_le; lia).
  destruct (draw_run (Z.to_nat k) population w) as (s & w' & Hd & Hl & H);
    [lia|].
  exists s, w'. split; [exact Hd|]. split; [lia | exact H].
Qed.

Lemma random_sample_out_of_range (population : list Z) (k : Z) (w : world) :
  (k < 0 \/ Z.of_nat (length population) < k)%Z ->
  random_sample population k w = (inl InsufficientPointsError, w).
Proof.
  intros Hk. unfold random_sample.
  replace ((0 <=? k) && (k <=? Z.of_nat (length population)))%Z with false;
    [reflexivity|].
  symmetry. apply andb_false_iff.
  destruct Hk; [left; apply Z.leb_gt | right; apply Z.leb_gt]; lia.
Qed.

(** ** Construction *)

Lemma get_initial_medoids_indices_run (ps : list addr) (k : Z) (w : world) :
  get_initial_medoids_indices ps k w = random_sample (ids_of w ps) k w.
Proof.
  unfold get_initial_medoids_indices, bind. rewrite map_M_get. reflexivity.
Qed.

Lemma init_accepts_labels (ps : list addr) (k : Z)
    (lbls : option (list string)) (w : world) :
  truthy lbls = false \/ len_labels lbls = k ->
  KMedoidsAlgorithm_init ps k lbls w =
  bind (random_sample (ids_of w ps) k)
       (fun medoids => ret (mkAlgorithm ps k lbls medoids)) w.
Proof.
  intros H. unfold KMedoidsAlgorithm_init.
  replace (truthy lbls && negb (len_labels lbls =? k)%Z) with false.
  - unfold bind. rewrite get_initial_medoids_indices_run. reflexivity.
  - symmetry. destruct H as [-> | ->]; [reflexivity|].
    rewrite Z.eqb_refl. apply andb_false_r.
Qed.

Lemma labels_accepted (k : Z) (lbls : option (list string)) :
  lbls = None \/ (exists l, lbls = Some l /\ Z.of_nat (length l) = k) ->
  truthy lbls = false \/ len_labels lbls = k.
Proof.
  intros [-> | (l & -> & Hl)]; [left; reflexivity | right; exact Hl].
Qed.

Lemma ids_of_length (w : world) (ps : list addr) :
  length (ids_of w ps) = length ps.
Proof. apply length_map. Qed.

(** C7, as amended: a supplied, non-empty [labels] whose length differs from
    [clusters_num] makes the construction raise the error of the label
    check, and nothing has been sampled: the world, with its random source,
    is as before.  With no labels or with exactly [clusters_num] labels that
    error is not raised. *)
Theorem init_checks_label_count
    (ps : list addr) (k : Z) (lbls : option (list string)) (w : world) :
  (forall l, lbls = Some l -> l <> [] -> Z.of_nat (length l) <> k ->
     KMedoidsAlgorithm_init ps k lbls w = (inl ConfigurationError, w)) /\
  (lbls = None \/ (exists l, lbls = Some l /\ Z.of_nat (length l) = k) ->
     fst (KMedoidsAlgorithm_init ps k lbls w) <> inl ConfigurationError).
Proof.
  split.
  - intros l -> Hne Hlen. unfold KMedoidsAlgorithm_init.
    destruct l as [|x l]; [congruence|].
    cbn [truthy len_labels andb].
    apply Z.eqb_neq in Hlen. rewrite Hlen. reflexivity.
  - intros H. rewrite (init_accepts_labels ps k lbls w (labels_accepted k lbls H)).
    unfold bind.
    destruct (Z_lt_dec k 0) as [Hneg|Hpos];
      [|destruct (Z_lt_dec (Z.of_nat (length (ids_of w ps))) k) as [Hbig|Hok]].
    + rewrite random_sample_out_of_range by auto. discriminate.
    + rewrite random_sample_out_of_range by auto. discriminate.
    + destruct (random_sample_in_range (ids_of w ps) k w) as (s & w' & -> & _);
        [lia | discriminate].
Qed.

(** C8, as amended: with no labels or exactly [clusters_num] of them, a
    negative [clusters_num] or one above the number of points makes the
    construction raise the error of [random.sample]; every [clusters_num]
    from 0 to the number of points gives an orchestrator whose
    [medoids_indices] are [clusters_num] ids drawn without replacement from
    the ids of the points. *)
Theorem init_checks_cluster_count
    (ps : list addr) (k : Z) (lbls : option (list string)) (w : world) :
  lbls = None \/ (exists l, lbls = Some l /\ Z.of_nat (length l) = k) ->
  ((k < 0 \/ Z.of_nat (length ps) < k)%Z ->
     KMedoidsAlgorithm_init ps k lbls w = (inl InsufficientPointsError, w)) /\
  ((0 <= k <= Z.of_nat (length ps))%Z ->
     exists medoids w',
       KMedoidsAlgorithm_init ps k lbls w =
         (inr (mkAlgorithm ps k lbls medoids), w') /\
       Z.of_nat (length medoids) = k /\
       sampled_from medoids (ids_of w ps)).
Proof.
  intros H.
  rewrite (init_accepts_labels ps k lbls w (labels_accepted k lbls H)).
  unfold bind. split; intros Hk.
  - rewrite random_sample_out_of_range; [reflexivity|].
    rewrite ids_of_length. exact Hk.
  - destruct (random_sample_in_range (ids_of w ps) k w)
      as (s & w' & -> & Hl & Hs & _); [rewrite ids_of_length; exact Hk|].
    exists s, w'. auto.
Qed.

(** ** swap_medoids *)

Lemma swap_medoids_run
    (self : KMedoidsAlgorithm) (old_medoid new_medoid : addr) (w : world) :
  (~ In (idx (objs w old_medoid)) (medoids_indices self) ->
     swap_medoids self old_medoid new_medoid w = (inl InvalidSwapError, self)) /\
  (In (idx (objs w old_medoid)) (medoids_indices self) ->
     exists l1 l2,
       medoids_indices self = l1 ++ idx (objs w old_medoid) :: l2 /\
       ~ In (idx (objs w old_medoid)) l1 /\
       swap_medoids self old_medoid new_medoid w =
         (inr tt,
          mkAlgorithm (points self) (clusters_num self) (labels self)
                      ((l1 ++ l2) ++ [idx (objs w new_medoid)]))).
Proof.
  unfold swap_medoids. split; intros H.
  - rewrite (list_remove_none _ _ H). reflexivity.
  - destruct (list_remove_some _ _ H) as (l1 & l2 & Heq & Hnot & ->).
    exists l1, l2. auto.
Qed.

(** C6: when the id of [old_medoid] is not in [medoids_indices],
    [swap_medoids] raises the error of [list.remove] and the orchestrator is
    unchanged; when it is, the call returns, and [medoids_indices] is the
    list without the first occurrence of that id, followed by the id of
    [new_medoid]. *)
Theorem swap_medoids_outcome
    (self : KMedoidsAlgorithm) (old_medoid new_medoid : addr) (w : world) :
  (~ In (idx (objs w old_medoid)) (medoids_indices self) ->
     swap_medoids self old_medoid new_medoid w = (inl InvalidSwapError, self)) /\
  (In (idx (objs w old_medoid)) (medoids_indices self) ->
     exists l1 l2,
       medoids_indices self = l1 ++ idx (objs w old_medoid) :: l2 /\
       ~ In (idx (objs w old_medoid)) l1 /\
       swap_medoids self old_medoid new_medoid w =
         (inr tt,
          mkAlgorithm (points self) (clusters_num self) (labels self)
                      ((l1 ++ l2) ++ [idx (objs w new_medoid)]))).
Proof. exact (swap_medoids_run self old_medoid new_medoid w). Qed.

(** C5, as amended: when the points have pairwise distinct ids,
    [medoids_indices] holds [clusters_num] distinct ids of points after a
    construction that returns; a swap whose [old_medoid] is a current
    medoid and whose [new_medoid] is a point of the collection that is not a
    current medoid (or is [old_medoid] again) returns and keeps that; and
    any swap whose [old_medoid] is a current medoid returns and keeps the
    length of [medoids_indices]. *)
Theorem medoids_invariant_kept :
  (forall (ps : list addr) (k : Z) (lbls : option (list string))
          (w w' : world) (self : KMedoidsAlgorithm),
     NoDup (ids_of w ps) ->
     KMedoidsAlgorithm_init ps k lbls w = (inr self, w') ->
     medoids_invariant self w') /\
  (forall (self : KMedoidsAlgorithm) (old_medoid new_medoid : addr)
          (w : world),
     medoids_invariant self w ->
     In (idx (objs w old_medoid)) (medoids_indices self) ->
     In new_medoid (points self) ->
     (In (idx (objs w new_medoid)) (medoids_indices self) ->
      idx (objs w new_medoid) = idx (objs w old_medoid)) ->
     exists self',
       swap_medoids self old_medoid new_medoid w = (inr tt, self') /\
       medoids_invariant self' w) /\
  (forall (self : KMedoidsAlgorithm) (old_medoid new_medoid : addr)
          (w : world),
     In (idx (objs w old_medoid)) (medoids_indices self) ->
     exists self',
       swap_medoids self old_medoid new_medoid w = (inr tt, self') /\
       length (medoids_indices self') = length (medoids_indices self)).
Proof.
  split; [|split].
  - intros ps k lbls w w' self Hdistinct Hinit.
    unfold KMedoidsAlgorithm_init in Hinit.
    destruct (truthy lbls && negb (len_labels lbls =? k)%Z);
      [discriminate|].
    unfold bind in Hinit. rewrite get_initial_medoids_indices_run in Hinit.
    destruct (Z_lt_dec k 0) as [Hneg|Hpos];
      [|destruct (Z_lt_dec (Z.of_nat (length (ids_of w ps))) k) as [Hbig|Hok]].
    + rewrite random_sample_out_of_range in Hinit by auto. discriminate.
    + rewrite random_sample_out_of_range in Hinit by auto. discriminate.
    + destruct (random_sample_in_range (ids_of w ps) k w)
        as (s & w1 & Hrun & Hl & (rest & Hperm) & Hobjs & _); [lia|].
      rewrite Hrun in Hinit. injection Hinit as <- <-.
      unfold medoids_invariant, ids_of. simpl. rewrite Hobjs.
      split; [exact Hl|]. split.
      * apply (NoDup_app_remove_r s rest).
        eapply Permutation_NoDup; [apply Permutation_sym; exact Hperm|].
        exact Hdistinct.
      * intros x Hx. eapply Permutation_in; [exact Hperm|].
        apply in_or_app. left. exact Hx.
  - intros self old_medoid new_medoid w (Hlen & Hnd & Hincl) Hold Hnew Hfresh.
    destruct (proj2 (swap_medoids_run self old_medoid new_medoid w) Hold)
      as (l1 & l2 & Heq & _ & Hrun).
    eexists. split; [exact Hrun|].
    unfold medoids_invariant. simpl. rewrite Heq in *.
    assert (Hx : ~ In (idx (objs w old_medoid)) (l1 ++ l2))
      by (apply NoDup_remove_2; exact Hnd).
    split; [|split].
    + rewrite <- Hlen. rewrite !length_app. simpl. lia.
    + eapply Permutation_NoDup; [apply Permutation_cons_append|].
      constructor; [|apply NoDup_remove_1 with (a := idx (objs w old_medoid));
                     exact Hnd].
      intros Hy. apply Hx. rewrite <- Hfresh; [exact Hy|].
      apply in_app_or in Hy. apply in_or_app.
      destruct Hy; [left | right; right]; assumption.
    + intros x Hin. apply in_app_or in Hin. destruct Hin as [Hin|[<-|[]]].
      * apply Hincl. apply in_app_or in Hin. apply in_or_app.
        destruct Hin; [left | right; right]; assumption.
      * unfold ids_of. apply (in_map (fun p => idx (objs w p))). exact Hnew.
  - intros self old_medoid new_medoid w Hold.
    destruct (proj2 (swap_medoids_run self old_medoid new_medoid w) Hold)
      as (l1 & l2 & Heq & _ & Hrun).
    eexists. split; [exact Hrun|].
    simpl. rewrite Heq, !length_app. simpl. lia.
Qed.

End OrchestratorFacts.

Section ResultFacts.

Context {N : Number}.

Lemma Z_eqb_eq (a b : Z) : Z.eqb a b = true <-> a = b.
Proof. apply Z.eqb_eq. Qed.

(** *** The label mapper *)

Lemma enumerate_keys (i : Z) (l : list Z) :
  map fst (map (fun im : Z * Z => (snd im, CInt (fst im))) (enumerate_from i l))
  = l.
Proof.
  revert i. induction l as [|x l IH]; intros i; simpl; [reflexivity|].
  rewrite IH. reflexivity.
Qed.

Lemma enumerate_lookup (l : list Z) (x : Z) :
  forall i,
    dict_get Z.eqb x
      (map (fun im : Z * Z => (snd im, CInt (fst im))) (enumerate_from i l)) =
    option_map (fun n => CInt (i + Z.of_nat n)) (index_of x l).
Proof.
  induction l as [|y l IH]; intros i; simpl; [reflexivity|].
  destruct (Z.eqb y x); [simpl; f_equal; f_equal; lia|].
  rewrite IH. destruct (index_of x l); simpl; [f_equal; f_equal; lia|].
  reflexivity.
Qed.

Lemma combine_keys (lbls : list string) (l : list Z) :
  length lbls = length l ->
  map fst (map (fun lm : string * Z => (snd lm, CStr (fst lm)))
               (combine lbls l)) = l.
Proof.
  revert lbls. induction l as [|x l IH]; intros [|s lbls] H; simpl in *;
    try discriminate; [reflexivity|].
  rewrite IH; [reflexivity | lia].
Qed.

Lemma combine_lookup (l : list Z) (x : Z) :
  forall lbls,
    length lbls = length l ->
    dict_get Z.eqb x
      (map (fun lm : string * Z => (snd lm, CStr (fst lm))) (combine lbls l)) =
    match index_of x l with
    | Some n => option_map CStr (nth_error lbls n)
    | None => None
    end.
Proof.
  induction l as [|y l IH]; intros [|s lbls] H; simpl in *;
    try discriminate; [reflexivity|].
  destruct (Z.eqb y x); [reflexivity|].
  rewrite IH by lia. destruct (index_of x l); reflexivity.
Qed.

(** *** The table *)

Section Table.

Variables frame series : Type.
Variable pd_DataFrame : list (string * list cell) -> M world frame.
Variable pd_getitem : string -> frame -> M world series.
Variable pd_setitem : string -> series -> frame -> M world frame.
Variable pd_replace_inplace :
  string -> list (Z * cell) -> frame -> M world frame.

(** The call stops at its first statement: at the subscript when there is
    no point, else at the lookup of [get_data] on the first point. *)
Lemma get_result_df_run (self : KMedoidsAlgorithm) (w : world) :
  get_result_df pd_DataFrame pd_getitem pd_setitem pd_replace_inplace self w =
  (inl (match points self with
        | [] => IndexError
        | _ :: _ => AttributeError "get_data"
        end), w).
Proof.
  unfold get_result_df. destruct (points self) as [|first rest].
  - reflexivity.
  - unfold bind, get_data, raise. reflexivity.
Qed.

(** C9: [get_result_df] returns a table for no orchestrator, whatever the
    state of its points and whatever pandas does.  For an orchestrator
    without points the subscript [self.points[0]] raises [IndexError]; for
    every other one the call [self.points[0].get_data()] raises
    [AttributeError], class [Point] having no method of that name.  The
    points are left as they were. *)
Theorem get_result_df_raises (self : KMedoidsAlgorithm) (w : world) :
  get_result_df pd_DataFrame pd_getitem pd_setitem pd_replace_inplace self w =
  (inl (match points self with
        | [] => IndexError
        | _ :: _ => AttributeError "get_data"
        end), w).
Proof. exact (get_result_df_run self w). Qed.

End Table.

End ResultFacts.

(** * Further properties *)

Section ScanFacts.

Context {N : Number}.
Variable compute_distance : coords -> coords -> num.

Ltac by_slots :=
  repeat (cbn beta iota zeta delta [fst snd objs ret raise py_lt is_nan is_better];
          repeat match goal with
                 | H : _ (objs _ _) = _ |- _ => rewrite H
                 end).

(** One iteration of the loop changes the store as [scan_point] says. *)
Lemma scan_medoid_point (self m : addr) (w : world) (a : addr) :
  m <> self ->
  objs (snd (scan_medoid compute_distance self m w)) a =
  if Nat.eqb a self
  then scan_point (objs w self) m
         (compute_distance (coordinates (objs w self))
                           (coordinates (objs w m)))
  else objs w a.
Proof.
  intros Hne. unfold scan_medoid, scan_point, bind, get, call_compute_distance.
  set (d := compute_distance _ _).
  destruct (nearest_medoid (objs w self)) eqn:H1;
    destruct (nearest_medoid_distance (objs w self)) eqn:H2;
    destruct (second_nearest_medoid (objs w self)) eqn:H3;
    destruct (second_nearest_medoid_distance (objs w self)) eqn:H4;
    by_slots;
    repeat match goal with
           | |- context [num_lt ?x ?y] => destruct (num_lt x y); by_slots
           end;
    simpl;
    (destruct (Nat.eqb_spec a self) as [->|Ha];
     [ rewrite ?Nat.eqb_refl; simpl; rewrite ?H1, ?H2, ?H3, ?H4; reflexivity
     | apply Nat.eqb_neq in Ha; rewrite ?Ha; reflexivity ]).
Qed.

Lemma scan_loop_fold (c0 : coords) (cm : addr -> coords) (self : addr)
    (medoids : list addr) :
  ~ In self medoids ->
  forall (seen : list addr) (w : world),
    (forall m, In m medoids -> coordinates (objs w m) = cm m) ->
    scanned compute_distance c0 cm seen (objs w self) ->
    objs (snd (for_each medoids (scan_medoid compute_distance self) w)) self =
    fold_left (fun q m => scan_point q m (compute_distance c0 (cm m)))
              medoids (objs w self).
Proof.
  induction medoids as [|m medoids IH]; intros Hnot seen w Hcm Hs.
  - reflexivity.
  - assert (Hm : m <> self) by (intros ->; apply Hnot; left; reflexivity).
    destruct (scan_medoid_step compute_distance c0 cm self m seen w Hm
                (Hcm m (or_introl eq_refl)) Hs)
      as (w1 & Hrun & Hs1 & _ & Hfr1 & _).
    pose proof (scan_medoid_point self m w self Hm) as Hpt.
    rewrite Hrun, Nat.eqb_refl in Hpt. cbn [snd] in Hpt.
    destruct Hs as [Hc _]. rewrite Hc, (Hcm m (or_introl eq_refl)) in Hpt.
    cbn [for_each fold_left]. unfold bind at 1. rewrite Hrun.
    rewrite <- Hpt. apply (IH (fun H => Hnot (or_intror H)) (seen ++ [m])).
    + intros m' Hin. rewrite Hfr1; [apply Hcm; right; exact Hin|].
      intros ->. apply Hnot. right. exact Hin.
    + exact Hs1.
Qed.

(** [update_cluster_assignment] always returns, and changes the store at
    the point alone, as [assigned_point] says. *)
Lemma update_point (w : world) (self : addr) (medoids : list addr) :
  fst (update_cluster_assignment compute_distance self medoids w) = inr tt /\
  forall a,
    objs (snd (update_cluster_assignment compute_distance self medoids w)) a =
    if Nat.eqb a self then assigned_point compute_distance w medoids self
    else objs w a.
Proof.
  unfold assigned_point.
  destruct (py_in self medoids) eqn:Hin.
  - unfold update_cluster_assignment. rewrite Hin.
    split; [reflexivity|]. intros a. reflexivity.
  - apply py_in_false in Hin.
    destruct (update_non_medoid compute_distance w self medoids Hin)
      as (w' & Hrun & _ & _ & Hfr & _).
    rewrite Hrun. split; [reflexivity|]. intros a. cbn [snd].
    destruct (Nat.eqb_spec a self) as [->|Ha]; [|exact (Hfr a Ha)].
    unfold update_cluster_assignment in Hrun.
    rewrite (proj2 (py_in_false self medoids) Hin) in Hrun.
    set (w0 := snd (set_second_nearest_medoid_distance self DNan
                 (snd (set_second_nearest_medoid self MNan
                    (snd (set_nearest_medoid_distance self DNan
                       (snd (set_nearest_medoid self MNan w)))))))).
    assert (Hloop : for_each medoids (scan_medoid compute_distance self) w0 =
                    (inr tt, w')) by exact Hrun.
    assert (H0 : objs w0 self = reset_point (objs w self)).
    { subst w0. simpl. rewrite !Nat.eqb_refl. reflexivity. }
    pose proof (scan_loop_fold (coordinates (objs w self))
                  (fun m => coordinates (objs w m)) self medoids Hin [] w0)
      as Hfold.
    rewrite Hloop, H0 in Hfold. cbn [snd] in Hfold. apply Hfold.
    + intros m Hm. subst w0. simpl.
      assert (Hne : (m =? self)%nat = false).
      { apply Nat.eqb_neq. intros ->. exact (Hin Hm). }
      rewrite !Hne. reflexivity.
    + unfold scanned. simpl. auto.
Qed.

(** *** Facts on the order *)

Lemma num_lt_irrefl (a : num) : num_lt a a = false.
Proof.
  destruct (num_lt a a) eqn:H; [|reflexivity].
  rewrite (num_lt_asym a a H) in H. discriminate.
Qed.

Lemma num_lt_trans (a b c : num) :
  num_lt a b = true -> num_lt b c = true -> num_lt a c = true.
Proof.
  intros Hab Hbc. destruct (num_lt_negtrans a c b Hab) as [H|H]; [exact H|].
  rewrite (num_lt_asym b c Hbc) in H. discriminate.
Qed.

Lemma num_lt_le_trans (a b c : num) :
  num_lt a b = true -> num_lt c b = false -> num_lt a c = true.
Proof.
  intros Hab Hcb. destruct (num_lt_negtrans a c b Hab) as [H|H]; [exact H|].
  congruence.
Qed.

Lemma num_nlt_trans (a b c : num) :
  num_lt b a = false -> num_lt c b = false -> num_lt c a = false.
Proof.
  intros Hba Hcb. destruct (num_lt c a) eqn:H; [|reflexivity].
  destruct (num_lt_negtrans c b a H); congruence.
Qed.

(** *** The point keeps its id and coordinates *)

Lemma scan_point_keeps (p : Point) (m : addr) (d : num) :
  idx (scan_point p m d) = idx p /\
  coordinates (scan_point p m d) = coordinates p.
Proof.
  unfold scan_point.
  destruct (is_better (nearest_medoid p) _ d) as [[|]|];
    [split; reflexivity| |split; reflexivity].
  destruct (is_better (second_nearest_medoid p) _ d) as [[|]|];
    split; reflexivity.
Qed.

Lemma scan_fold_keeps (f : addr -> num) (l : list addr) (q : Point) :
  idx (fold_left (fun q m => scan_point q m (f m)) l q) = idx q /\
  coordinates (fold_left (fun q m => scan_point q m (f m)) l q) =
    coordinates q.
Proof.
  revert q. induction l as [|m l IH]; intros q; [split; reflexivity|].
  simpl. destruct (IH (scan_point q m (f m))) as [-> ->].
  apply scan_point_keeps.
Qed.

Lemma assign_point_keeps (cm : addr -> coords) (p : Point)
    (medoids : list addr) :
  idx (assign_point compute_distance cm p medoids) = idx p /\
  coordinates (assign_point compute_distance cm p medoids) = coordinates p.
Proof.
  unfold assign_point.
  exact (scan_fold_keeps
           (fun m => compute_distance (coordinates p) (cm m)) medoids
           (reset_point p)).
Qed.

Lemma assigned_point_keeps (w : world) (medoids : list addr) (a : addr) :
  idx (assigned_point compute_distance w medoids a) = idx (objs w a) /\
  coordinates (assigned_point compute_distance w medoids a) =
    coordinates (objs w a).
Proof.
  unfold assigned_point. destruct (py_in a medoids); [split; reflexivity|].
  apply assign_point_keeps.
Qed.

(** *** The scan reads the id and coordinates of the point only *)

Lemma scan_fold_ext (f g : addr -> num) (l : list addr) (q : Point) :
  (forall m, In m l -> f m = g m) ->
  fold_left (fun q m => scan_point q m (f m)) l q =
  fold_left (fun q m => scan_point q m (g m)) l q.
Proof.
  revert q. induction l as [|m l IH]; intros q H; [reflexivity|].
  simpl. rewrite (H m (or_introl eq_refl)).
  apply IH. intros m' Hm'. apply H. right. exact Hm'.
Qed.

Lemma assign_point_ext (cm cm' : addr -> coords) (p q : Point)
    (medoids : list addr) :
  idx p = idx q ->
  coordinates p = coordinates q ->
  (forall m, In m medoids -> cm m = cm' m) ->
  assign_point compute_distance cm p medoids =
  assign_point compute_distance cm' q medoids.
Proof.
  intros Hi Hc Hcm. unfold assign_point, reset_point. rewrite Hi, Hc.
  apply scan_fold_ext. intros m Hm. rewrite (Hcm m Hm). reflexivity.
Qed.

(** Assigning again a point that was left alone or was just assigned gives
    what assigning it the first time gave. *)
Lemma assigned_point_again (w w1 : world) (medoids : list addr) (a : addr) :
  (forall b, coordinates (objs w1 b) = coordinates (objs w b)) ->
  objs w1 a = objs w a \/
  objs w1 a = assigned_point compute_distance w medoids a ->
  assigned_point compute_distance w1 medoids a =
  assigned_point compute_distance w medoids a.
Proof.
  intros Hc Ha.
  assert (Hi : idx (objs w1 a) = idx (objs w a)).
  { destruct Ha as [->| ->]; [reflexivity|]. apply assigned_point_keeps. }
  unfold assigned_point in *. destruct (py_in a medoids).
  - rewrite Hi, Hc. destruct Ha as [->| ->]; reflexivity.
  - apply assign_point_ext; [exact Hi | apply Hc | intros m _; apply Hc].
Qed.

(** *** What the scan has found *)

Lemma second_tracked_intro (dist : addr -> num) (others : list addr)
    (p : Point) :
  others <> [] ->
  (exists m2,
     second_nearest_medoid p = MRef m2 /\
     second_nearest_medoid_distance p = DNum (dist m2) /\
     In m2 others /\
     forall y, In y others -> num_lt (dist y) (dist m2) = false) ->
  second_tracked dist others p.
Proof. destruct others; [congruence | intros _ H; exact H]. Qed.

Lemma tracked_intro (dist : addr -> num) (seen : list addr) (p : Point) :
  seen <> [] ->
  (exists l1 m l2,
     seen = l1 ++ m :: l2 /\
     nearest_medoid p = MRef m /\
     nearest_medoid_distance p = DNum (dist m) /\
     (forall y, In y l1 -> num_lt (dist m) (dist y) = true) /\
     (forall y, In y l2 -> num_lt (dist y) (dist m) = false) /\
     second_tracked dist (l1 ++ l2) p) ->
  tracked dist seen p.
Proof. destruct seen; [congruence | intros _ H; exact H]. Qed.

Lemma tracked_elim (dist : addr -> num) (seen : list addr) (p : Point) :
  seen <> [] ->
  tracked dist seen p ->
  exists l1 m l2,
    seen = l1 ++ m :: l2 /\
    nearest_medoid p = MRef m /\
    nearest_medoid_distance p = DNum (dist m) /\
    (forall y, In y l1 -> num_lt (dist m) (dist y) = true) /\
    (forall y, In y l2 -> num_lt (dist y) (dist m) = false) /\
    second_tracked dist (l1 ++ l2) p.
Proof. destruct seen; [congruence | intros _ H; exact H]. Qed.

Lemma snoc_not_nil {A} (l : list A) (x : A) : l ++ [x] <> [].
Proof. destruct l; discriminate. Qed.

Lemma scan_point_tracked (dist : addr -> num) (seen : list addr) (q : Point)
    (x : addr) :
  tracked dist seen q ->
  tracked dist (seen ++ [x]) (scan_point q x (dist x)).
Proof.
  intros Ht. apply tracked_intro; [apply snoc_not_nil|].
  destruct seen as [|s0 seen0].
  - destruct Ht as (H1 & H2 & H3 & H4).
    exists [], x, []. unfold scan_point. rewrite H1. simpl.
    repeat split; auto; contradiction.
  - remember (s0 :: seen0) as seen eqn:Hseen.
    assert (Hne : seen <> []) by (subst; discriminate).
    destruct (tracked_elim dist seen q Hne Ht)
      as (l1 & m & l2 & Heq & H1 & H2 & Hbefore & Hafter & Hsec).
    clear Hseen Ht. unfold scan_point. rewrite H1, H2. cbn [is_better].
    destruct (num_lt (dist x) (dist m)) eqn:Hx.
    + (* the new medoid is strictly nearer *)
      exists seen, x, []. simpl. rewrite app_nil_r.
      split; [reflexivity|]. split; [reflexivity|]. split; [reflexivity|].
      split; [|split; [intros y []|]].
      * intros y Hy. rewrite Heq in Hy. apply in_app_or in Hy.
        destruct Hy as [Hy|[<-|Hy]]; [|exact Hx|].
        -- eapply num_lt_trans; [exact Hx | apply Hbefore; exact Hy].
        -- eapply num_lt_le_trans; [exact Hx | apply Hafter; exact Hy].
      * apply second_tracked_intro; [exact Hne|].
        exists m. simpl. split; [reflexivity|]. split; [reflexivity|].
        split; [rewrite Heq; apply in_or_app; right; left; reflexivity|].
        intros y Hy. rewrite Heq in Hy. apply in_app_or in Hy.
        destruct Hy as [Hy|[<-|Hy]].
        -- apply num_lt_asym, Hbefore, Hy.
        -- apply num_lt_irrefl.
        -- apply Hafter, Hy.
    + (* the nearest medoid stays *)
      assert (Hsplit : seen ++ [x] = l1 ++ m :: (l2 ++ [x]))
        by (rewrite Heq, <- app_assoc; reflexivity).
      assert (Hafter' : forall y, In y (l2 ++ [x]) ->
                                  num_lt (dist y) (dist m) = false).
      { intros y Hy. apply in_app_or in Hy.
        destruct Hy as [Hy|[<-|[]]]; [apply Hafter, Hy | exact Hx]. }
      assert (Hothers : l1 ++ l2 ++ [x] = (l1 ++ l2) ++ [x])
        by apply app_assoc.
      exists l1, m, (l2 ++ [x]).
      destruct (l1 ++ l2) as [|o others] eqn:Ho.
      * destruct Hsec as [H3 H4]. rewrite H3. cbn [is_better].
        simpl. repeat split; auto.
        rewrite Hothers. simpl. exists x.
        repeat split; auto.
        intros y [<-|[]]. apply num_lt_irrefl.
      * destruct Hsec as (m2 & H3 & H4 & Hin & Hmin).
        rewrite H3, H4. cbn [is_better].
        destruct (num_lt (dist x) (dist m2)) eqn:Hx2.
        -- simpl. repeat split; auto.
           rewrite Hothers. apply second_tracked_intro; [apply snoc_not_nil|].
           exists x.
           split; [reflexivity|]. split; [reflexivity|]. split.
           ++ apply in_or_app. right. left. reflexivity.
           ++ intros y Hy. apply in_app_or in Hy.
              destruct Hy as [Hy|[<-|[]]]; [|apply num_lt_irrefl].
              eapply num_nlt_trans;
                [apply num_lt_asym; exact Hx2 | apply Hmin; exact Hy].
        -- repeat split; auto.
           rewrite Hothers. apply second_tracked_intro; [apply snoc_not_nil|].
           exists m2.
           split; [exact H3|]. split; [exact H4|]. split.
           ++ apply in_or_app. left. exact Hin.
           ++ intros y Hy. apply in_app_or in Hy.
              destruct Hy as [Hy|[<-|[]]]; [apply Hmin, Hy | exact Hx2].
Qed.

Lemma scan_fold_tracked (dist : addr -> num) (l : list addr) :
  forall (seen : list addr) (q : Point),
    tracked dist seen q ->
    tracked dist (seen ++ l)
            (fold_left (fun q m => scan_point q m (dist m)) l q).
Proof.
  induction l as [|x l IH]; intros seen q Ht.
  - rewrite app_nil_r. exact Ht.
  - simpl. replace (seen ++ x :: l) with ((seen ++ [x]) ++ l)
      by (rewrite <- app_assoc; reflexivity).
    apply IH, scan_point_tracked, Ht.
Qed.

Lemma assign_point_tracked (cm : addr -> coords) (p : Point)
    (medoids : list addr) :
  tracked (fun m => compute_distance (coordinates p) (cm m)) medoids
          (assign_point compute_distance cm p medoids).
Proof.
  unfold assign_point.
  apply (scan_fold_tracked
           (fun m => compute_distance (coordinates p) (cm m)) medoids []).
  simpl. auto.
Qed.

(** *** The pass over all points *)

Lemma update_keeps_coordinates (w : world) (self : addr)
    (medoids : list addr) (b : addr) :
  idx (objs (snd (update_cluster_assignment compute_distance self medoids w)) b)
    = idx (objs w b) /\
  coordinates
    (objs (snd (update_cluster_assignment compute_distance self medoids w)) b)
    = coordinates (objs w b).
Proof.
  destruct (update_point w self medoids) as [_ H]. rewrite H.
  destruct (Nat.eqb_spec b self) as [->|_]; [|split; reflexivity].
  apply assigned_point_keeps.
Qed.

Lemma for_each_step {A} (body : A -> M world unit) (x : A) (l : list A)
    (w w1 : world) :
  body x w = (inr tt, w1) ->
  for_each (x :: l) body w = for_each l body w1.
Proof. intros H. cbn [for_each]. unfold bind. rewrite H. reflexivity. Qed.

Lemma update_all_point (medoids : list addr) (ps : list addr) :
  forall w,
    fst (for_each ps (fun point =>
           update_cluster_assignment compute_distance point medoids) w)
      = inr tt /\
    forall a,
      objs (snd (for_each ps (fun point =>
              update_cluster_assignment compute_distance point medoids) w)) a =
      if py_in a ps then assigned_point compute_distance w medoids a
      else objs w a.
Proof.
  induction ps as [|p ps IH]; intros w; [split; reflexivity|].
  destruct (update_point w p medoids) as [Hok Hobjs].
  pose proof (fun b => proj2 (update_keeps_coordinates w p medoids b)) as Hco.
  destruct (update_cluster_assignment compute_distance p medoids w)
    as [res w1] eqn:Hrun.
  cbn [fst snd] in *. subst res.
  rewrite (for_each_step _ p ps w w1 Hrun).
  destruct (IH w1) as [Hok1 Hobjs1]. split; [exact Hok1|].
  intros a. rewrite Hobjs1. unfold py_in at 2. cbn [existsb].
  fold (py_in a ps). destruct (py_in a ps).
  - rewrite orb_true_r. apply assigned_point_again; [exact Hco|].
    rewrite Hobjs. destruct (Nat.eqb_spec a p) as [->|_]; auto.
  - rewrite orb_false_r, Hobjs.
    destruct (Nat.eqb_spec a p) as [->|_]; reflexivity.
Qed.

Lemma prepare_medoids_run (self : KMedoidsAlgorithm) (w : world) :
  prepare_medoids self w =
  (inr (filter (fun point =>
                  existsb (Z.eqb (idx (objs w point))) (medoids_indices self))
               (points self)), w).
Proof. reflexivity. Qed.

Lemma update_clusters_assignment_point (self : KMedoidsAlgorithm)
    (w : world) (medoids : list addr) :
  prepare_medoids self w = (inr medoids, w) ->
  fst (update_clusters_assignment compute_distance self w) = inr tt /\
  forall a,
    objs (snd (update_clusters_assignment compute_distance self w)) a =
    if py_in a (points self) then assigned_point compute_distance w medoids a
    else objs w a.
Proof.
  intros Hprep. unfold update_clusters_assignment, bind. rewrite Hprep.
  apply update_all_point.
Qed.

(** X1: [update_clusters_assignment] always returns, and the points do not
    interfere: a point of the collection ends as a single call of
    [update_cluster_assignment] on it, against the prepared medoids in the
    world before the pass, leaves it; every other object is untouched. *)
Theorem update_clusters_assignment_pointwise
    (self : KMedoidsAlgorithm) (w : world) (medoids : list addr) :
  prepare_medoids self w = (inr medoids, w) ->
  fst (update_clusters_assignment compute_distance self w) = inr tt /\
  forall a,
    (In a (points self) ->
     objs (snd (update_clusters_assignment compute_distance self w)) a =
     objs (snd (update_cluster_assignment compute_distance a medoids w)) a) /\
    (~ In a (points self) ->
     objs (snd (update_clusters_assignment compute_distance self w)) a =
     objs w a).
Proof.
  intros Hprep.
  destruct (update_clusters_assignment_point self w medoids Hprep) as [Hok H].
  split; [exact Hok|]. intros a. rewrite H. split; intros Ha.
  - rewrite (proj2 (py_in_true a (points self)) Ha).
    rewrite (proj2 (update_point w a medoids)), Nat.eqb_refl. reflexivity.
  - rewrite (proj2 (py_in_false a (points self)) Ha). reflexivity.
Qed.

(** X2: a second [update_clusters_assignment] with no swap in between
    leaves every object as the first one left it. *)
Theorem update_clusters_assignment_idempotent
    (self : KMedoidsAlgorithm) (w : world) (a : addr) :
  let w1 := snd (update_clusters_assignment compute_distance self w) in
  let w2 := snd (update_clusters_assignment compute_distance self w1) in
  objs w2 a = objs w1 a.
Proof.
  cbv zeta.
  destruct (update_clusters_assignment_point self w _
              (prepare_medoids_run self w)) as [_ H1].
  set (w1 := snd (update_clusters_assignment compute_distance self w)) in *.
  assert (Hkeep : forall b, idx (objs w1 b) = idx (objs w b) /\
                            coordinates (objs w1 b) = coordinates (objs w b)).
  { intros b. rewrite H1. destruct (py_in b (points self));
      [apply assigned_point_keeps | split; reflexivity]. }
  assert (Hprep : prepare_medoids self w1 =
                  (inr (filter (fun point =>
                          existsb (Z.eqb (idx (objs w point)))
                                  (medoids_indices self))
                        (points self)), w1)).
  { rewrite prepare_medoids_run. f_equal. f_equal.
    apply filter_ext. intros b. rewrite (proj1 (Hkeep b)). reflexivity. }
  destruct (update_clusters_assignment_point self w1 _ Hprep) as [_ H2].
  rewrite H2. destruct (py_in a (points self)) eqn:Hin; [|reflexivity].
  rewrite (H1 a), Hin.
  apply assigned_point_again; [intros b; apply Hkeep|].
  right. rewrite (H1 a), Hin. reflexivity.
Qed.

(** *** The nearest medoid and the cost of a swap *)

Lemma tracked_ext (dist dist' : addr -> num) (seen : list addr)
    (p : Point) :
  (forall m, dist m = dist' m) ->
  tracked dist seen p -> tracked dist' seen p.
Proof.
  intros Hd Ht. destruct seen as [|s0 seen0]; [exact Ht|].
  assert (Hne : s0 :: seen0 <> []) by discriminate.
  apply tracked_intro; [exact Hne|].
  destruct (tracked_elim _ _ _ Hne Ht)
    as (l1 & m & l2 & Heq & H1 & H2 & Hb & Ha & Hsec).
  exists l1, m, l2. rewrite <- !Hd.
  split; [exact Heq|]. split; [exact H1|]. split; [exact H2|].
  split; [intros y Hy; rewrite <- !Hd; apply Hb, Hy|].
  split; [intros y Hy; rewrite <- !Hd; apply Ha, Hy|].
  destruct (l1 ++ l2) as [|o others]; [exact Hsec|].
  destruct Hsec as (m2 & H3 & H4 & Hin & Hmin).
  exists m2. rewrite <- !Hd.
  split; [exact H3|]. split; [exact H4|]. split; [exact Hin|].
  intros y Hy. rewrite <- !Hd. apply Hmin, Hy.
Qed.

Lemma update_tracked (w : world) (self : addr) (medoids : list addr) :
  ~ In self medoids ->
  let w' := snd (update_cluster_assignment compute_distance self medoids w) in
  tracked (fun m => compute_distance (coordinates (objs w' self))
                                     (coordinates (objs w' m)))
          medoids (objs w' self).
Proof.
  intros Hnot w'.
  apply (tracked_ext (fun m => compute_distance (coordinates (objs w self))
                                                (coordinates (objs w m)))).
  - intros m. subst w'.
    rewrite (proj2 (update_keeps_coordinates w self medoids self)),
            (proj2 (update_keeps_coordinates w self medoids m)).
    reflexivity.
  - subst w'.
    rewrite (proj2 (update_point w self medoids)), Nat.eqb_refl.
    unfold assigned_point. rewrite (proj2 (py_in_false self medoids) Hnot).
    apply assign_point_tracked.
Qed.

(** The invariant mentions the distances to the scanned medoids only, and
    the attributes of the point only. *)
Lemma tracked_ext_in (dist dist' : addr -> num) (seen : list addr)
    (p : Point) :
  (forall m, In m seen -> dist m = dist' m) ->
  tracked dist seen p -> tracked dist' seen p.
Proof.
  intros Hd Ht. destruct seen as [|s0 seen0]; [exact Ht|].
  assert (Hne : s0 :: seen0 <> []) by discriminate.
  apply tracked_intro; [exact Hne|].
  destruct (tracked_elim _ _ _ Hne Ht)
    as (l1 & m & l2 & Heq & H1 & H2 & Hb & Ha & Hsec).
  assert (Hm : In m (s0 :: seen0))
    by (rewrite Heq; apply in_or_app; right; left; reflexivity).
  assert (Hl1 : forall y, In y l1 -> In y (s0 :: seen0))
    by (intros y Hy; rewrite Heq; apply in_or_app; left; exact Hy).
  assert (Hl2 : forall y, In y l2 -> In y (s0 :: seen0))
    by (intros y Hy; rewrite Heq; apply in_or_app; right; right; exact Hy).
  assert (Hl : forall y, In y (l1 ++ l2) -> In y (s0 :: seen0)).
  { intros y Hy. apply in_app_or in Hy. destruct Hy; auto. }
  exists l1, m, l2. rewrite <- (Hd m Hm).
  split; [exact Heq|]. split; [exact H1|]. split; [exact H2|].
  split; [intros y Hy; rewrite <- (Hd y (Hl1 y Hy)); apply Hb, Hy|].
  split; [intros y Hy; rewrite <- (Hd y (Hl2 y Hy)); apply Ha, Hy|].
  destruct (l1 ++ l2) as [|o others]; [exact Hsec|].
  destruct Hsec as (m2 & H3 & H4 & Hin & Hmin).
  exists m2. rewrite <- (Hd m2 (Hl m2 Hin)).
  split; [exact H3|]. split; [exact H4|]. split; [exact Hin|].
  intros y Hy. rewrite <- (Hd y (Hl y Hy)). apply Hmin, Hy.
Qed.

(** A point whose attributes are those an assignment against the list has
    computed, the coordinates of the medoids being what they were then. *)
Lemma assigned_tracked (w0 w : world) (self : addr) (medoids : list addr) :
  ~ In self medoids ->
  objs w self =
    objs (snd (update_cluster_assignment compute_distance self medoids w0))
         self ->
  (forall m, In m medoids ->
             coordinates (objs w m) = coordinates (objs w0 m)) ->
  tracked (fun m => compute_distance (coordinates (objs w self))
                                     (coordinates (objs w m)))
          medoids (objs w self).
Proof.
  intros Hnot Hfields Hcoords.
  pose proof (update_tracked w0 self medoids Hnot) as Ht. cbv zeta in Ht.
  rewrite Hfields.
  refine (tracked_ext_in _ _ medoids _ _ Ht).
  intros m Hm.
  rewrite (Hcoords m Hm),
          (proj2 (update_keeps_coordinates w0 self medoids m)).
  reflexivity.
Qed.

(** X3: for a point outside a non-empty medoid list, after
    [update_cluster_assignment] the nearest slot holds the first medoid of
    the list at the least distance (every earlier medoid is strictly
    farther, no later one is nearer) with the distance to it, and when the
    list has other positions the second slot holds one of them, at the
    least distance among them, with the distance to it. *)
Theorem nearest_is_first_at_least_distance
    (w : world) (self : addr) (medoids : list addr) :
  ~ In self medoids ->
  medoids <> [] ->
  let w' := snd (update_cluster_assignment compute_distance self medoids w) in
  let dist := fun m => compute_distance (coordinates (objs w' self))
                                        (coordinates (objs w' m)) in
  exists l1 m l2,
    medoids = l1 ++ m :: l2 /\
    nearest_medoid (objs w' self) = MRef m /\
    nearest_medoid_distance (objs w' self) = DNum (dist m) /\
    (forall y, In y l1 -> num_lt (dist m) (dist y) = true) /\
    (forall y, In y l2 -> num_lt (dist y) (dist m) = false) /\
    (l1 ++ l2 <> [] ->
     exists m2,
       second_nearest_medoid (objs w' self) = MRef m2 /\
       second_nearest_medoid_distance (objs w' self) = DNum (dist m2) /\
       In m2 (l1 ++ l2) /\
       forall y, In y (l1 ++ l2) -> num_lt (dist y) (dist m2) = false).
Proof.
  intros Hnot Hne w' dist.
  destruct (tracked_elim _ _ _ Hne (update_tracked w self medoids Hnot))
    as (l1 & m & l2 & Heq & H1 & H2 & Hb & Ha & Hsec).
  exists l1, m, l2. repeat (split; [assumption|]).
  intros Ho. destruct (l1 ++ l2); [congruence | exact Hsec].
Qed.

Lemma least_is_smallest (x : num) (l : list num) :
  In x l ->
  (forall y, In y l -> num_lt y x = false) ->
  kth_smallest 0 x l.
Proof.
  intros Hin Hleast. destruct (in_split x l Hin) as (l1 & l2 & ->).
  exists (x :: brute_force_sort (l1 ++ l2)). split; [|split; [|reflexivity]].
  - eapply perm_trans; [apply perm_skip, brute_force_sort_perm|].
    apply Permutation_middle.
  - constructor; [apply brute_force_sort_sorted|].
    eapply Permutation_Forall;
      [apply Permutation_sym, brute_force_sort_perm|].
    apply Forall_forall. intros y Hy. apply Hleast.
    apply in_app_or in Hy. apply in_or_app.
    destruct Hy; [left | right; right]; assumption.
Qed.

Lemma split_at_unique {A} (x : A) (l1 l2 k1 k2 : list A) :
  l1 ++ x :: l2 = k1 ++ x :: k2 ->
  ~ In x (l1 ++ l2) ->
  l1 = k1 /\ l2 = k2.
Proof.
  revert k1. induction l1 as [|a l1 IH]; intros k1 Heq Hnot.
  - destruct k1 as [|b k1]; simpl in *.
    + injection Heq as ->. auto.
    + injection Heq as <- ->. exfalso. apply Hnot.
      apply in_or_app. right. left. reflexivity.
  - destruct k1 as [|b k1]; simpl in *.
    + injection Heq as -> _. exfalso. apply Hnot. left. reflexivity.
    + injection Heq as -> Heq.
      destruct (IH k1 Heq (fun H => Hnot (or_intror H))) as [-> ->]. auto.
Qed.

(** X4: the cost of a swap is the change of the point's least distance.
    For a point outside the list [l1 ++ old :: l2], in which [old] occurs
    once, whose attributes are those an earlier [update_cluster_assignment]
    of it against that list has computed (in any state [w0]; the medoids
    have the coordinates they had then, and nothing else is asked of the
    state [w]): with [n] its nearest distance, the cost of replacing [old]
    by [new] is [x - n] for a least distance [x] from the point to the
    medoids of [l1 ++ l2 ++ [new]], or it is 0 and [n] still is such a
    least distance. *)
Theorem cost_is_change_of_least_distance
    (w0 w : world) (self old_medoid new_medoid : addr) (l1 l2 : list addr) :
  ~ In self (l1 ++ old_medoid :: l2) ->
  ~ In old_medoid (l1 ++ l2) ->
  let medoids := l1 ++ old_medoid :: l2 in
  objs w self =
    objs (snd (update_cluster_assignment compute_distance self medoids w0))
         self ->
  (forall m, In m medoids ->
             coordinates (objs w m) = coordinates (objs w0 m)) ->
  let cost := fst (compute_medoid_replacement_cost compute_distance
                     self old_medoid new_medoid medoids w) in
  exists n x,
    nearest_medoid_distance (objs w self) = DNum n /\
    kth_smallest 0 n (distances_to compute_distance w self medoids) /\
    kth_smallest 0 x
      (distances_to compute_distance w self (l1 ++ l2 ++ [new_medoid])) /\
    (cost = inr (DNum (num_sub x n)) \/
     cost = inr (DNum num_zero) /\ x = n).
Proof.
  intros Hnot Hold medoids Hfields Hcoords cost.
  assert (Hne : medoids <> []) by (subst medoids; destruct l1; discriminate).
  pose proof (assigned_tracked w0 w self medoids Hnot Hfields Hcoords) as Ht.
  set (dist := fun m => compute_distance (coordinates (objs w self))
                                         (coordinates (objs w m))) in *.
  destruct (tracked_elim _ _ _ Hne Ht)
    as (k1 & m & k2 & Heq & H1 & H2 & Hb & Ha & Hsec).
  assert (Hleast : forall y, In y medoids -> num_lt (dist y) (dist m) = false).
  { intros y Hy. rewrite Heq in Hy. apply in_app_or in Hy.
    destruct Hy as [Hy|[<-|Hy]];
      [apply num_lt_asym, Hb, Hy | apply num_lt_irrefl | apply Ha, Hy]. }
  assert (Hm : In m medoids)
    by (rewrite Heq; apply in_or_app; right; left; reflexivity).
  assert (Hsmall : forall (x : num) (l : list addr),
            In x (map dist l) ->
            (forall y, In y l -> num_lt (dist y) x = false) ->
            kth_smallest 0 x (distances_to compute_distance w self l)).
  { intros x l Hin Hall. apply least_is_smallest; [exact Hin|].
    intros d Hd. apply in_map_iff in Hd. destruct Hd as (y & <- & Hy).
    apply Hall, Hy. }
  assert (Hnew : forall y, In y (l1 ++ l2 ++ [new_medoid]) ->
                           In y (l1 ++ l2) \/ y = new_medoid).
  { intros y Hy. rewrite app_assoc in Hy. apply in_app_or in Hy.
    destruct Hy as [Hy|[<-|[]]]; auto. }
  assert (Hnew_in : In (dist new_medoid) (map dist (l1 ++ l2 ++ [new_medoid]))).
  { apply in_map. rewrite app_assoc. apply in_or_app. right. left.
    reflexivity. }
  assert (Hrest : forall y, In y (l1 ++ l2) -> In y medoids).
  { intros y Hy. subst medoids. apply in_app_or in Hy. apply in_or_app.
    destruct Hy; [left | right; right]; assumption. }
  destruct (cost_non_medoid compute_distance w self old_medoid new_medoid
              medoids (dist m) Hnot H2) as (Hmin & Hnan & Hother).
  fold cost in Hmin, Hnan, Hother. fold (dist new_medoid) in Hmin, Hnan, Hother.
  exists (dist m).
  destruct (Nat.eq_dec m old_medoid) as [->|Hmo].
  - (* the nearest medoid is the one that goes *)
    destruct (split_at_unique old_medoid l1 l2 k1 k2 Heq Hold) as [<- <-].
    destruct (l1 ++ l2) as [|o others] eqn:Ho.
    + destruct Hsec as [_ Hs]. exists (dist new_medoid).
      split; [exact H2|]. split; [apply Hsmall; [apply in_map, Hm | exact Hleast]|].
      split; [|left; exact (Hnan H1 Hs)].
      apply Hsmall; [exact Hnew_in|].
      intros y Hy. destruct (Hnew y Hy) as [[]| ->]. apply num_lt_irrefl.
    + destruct Hsec as (m2 & _ & Hs & Hin2 & Hmin2).
      exists (py_min (dist m2) (dist new_medoid)).
      split; [exact H2|]. split; [apply Hsmall; [apply in_map, Hm | exact Hleast]|].
      split; [|left; exact (Hmin H1 (dist m2) Hs)].
      unfold py_min. destruct (num_lt (dist new_medoid) (dist m2)) eqn:Hlt.
      * apply Hsmall; [exact Hnew_in|].
        intros y Hy. destruct (Hnew y Hy) as [Hy'| ->];
          [|apply num_lt_irrefl].
        eapply num_nlt_trans;
          [apply num_lt_asym; exact Hlt | apply Hmin2; exact Hy'].
      * apply Hsmall.
        -- apply in_map. rewrite app_assoc, Ho. apply in_or_app. left.
           exact Hin2.
        -- intros y Hy. destruct (Hnew y Hy) as [Hy'| ->];
             [apply Hmin2, Hy' | exact Hlt].
  - (* another medoid goes *)
    assert (Hnm : nearest_medoid (objs w self) <> MRef old_medoid)
      by (rewrite H1; congruence).
    destruct (Hother Hnm) as [Hcloser Hsame].
    assert (Hmrest : In m (l1 ++ l2)).
    { subst medoids. apply in_app_or in Hm. apply in_or_app.
      destruct Hm as [Hm|[Hm|Hm]]; [left; exact Hm | congruence | right; exact Hm]. }
    destruct (num_lt (dist new_medoid) (dist m)) eqn:Hlt.
    + exists (dist new_medoid).
      split; [exact H2|]. split; [apply Hsmall; [apply in_map, Hm | exact Hleast]|].
      split; [|left; exact (Hcloser eq_refl)].
      apply Hsmall; [exact Hnew_in|].
      intros y Hy. destruct (Hnew y Hy) as [Hy'| ->]; [|apply num_lt_irrefl].
      eapply num_nlt_trans;
        [apply num_lt_asym; exact Hlt | apply Hleast, Hrest, Hy'].
    + exists (dist m).
      split; [exact H2|]. split; [apply Hsmall; [apply in_map, Hm | exact Hleast]|].
      split; [|right; split; [|reflexivity]].
      * apply Hsmall.
        -- apply in_map. rewrite app_assoc. apply in_or_app. left. exact Hmrest.
        -- intros y Hy. destruct (Hnew y Hy) as [Hy'| ->];
             [apply Hleast, Hrest, Hy' | exact Hlt].
      * apply Hsame. rewrite num_ge_lt, Hlt. reflexivity.
Qed.

(** *** Errors and the log of distance calls *)

(** X5: for a point outside the medoid list whose two distance slots hold
    [None] (it was never assigned as a non-medoid: it is fresh, or it was a
    medoid until a swap and has not been assigned since),
    [compute_medoid_replacement_cost] raises [TypeError]. *)
Theorem cost_of_unassigned_point_raises
    (w : world) (self old_medoid new_medoid : addr) (medoids : list addr) :
  ~ In self medoids ->
  nearest_medoid_distance (objs w self) = DNone ->
  second_nearest_medoid_distance (objs w self) = DNone ->
  fst (compute_medoid_replacement_cost compute_distance
         self old_medoid new_medoid medoids w) = inl TypeError.
Proof.
  intros Hnot H1 H2. unfold compute_medoid_replacement_cost.
  rewrite (proj2 (py_in_false self medoids) Hnot).
  unfold bind, get, call_compute_distance. cbn [objs fst snd].
  destruct (py_eq_point _ _); cbn [objs]; [rewrite H2 | rewrite H1];
    reflexivity.
Qed.

Lemma update_calls (w : world) (self : addr) (medoids : list addr) :
  distance_calls
    (snd (update_cluster_assignment compute_distance self medoids w)) =
  distance_calls w ++
  (if py_in self medoids then []
   else map (fun m => (coordinates (objs w self), coordinates (objs w m)))
            medoids).
Proof.
  destruct (py_in self medoids) eqn:Hin.
  - apply py_in_true in Hin.
    destruct (update_medoid compute_distance w self medoids Hin)
      as (w' & Hrun & _ & _ & _ & _ & Hcalls & _).
    rewrite Hrun. cbn [snd]. rewrite Hcalls, app_nil_r. reflexivity.
  - apply py_in_false in Hin.
    destruct (update_non_medoid compute_distance w self medoids Hin)
      as (w' & Hrun & _ & _ & _ & Hcalls & _).
    rewrite Hrun. cbn [snd]. exact Hcalls.
Qed.

(** X6: the scan of a point outside the list computes one distance for
    each medoid of the list, in list order, each from the coordinates of
    the point to those of the medoid; for a point of the list no distance
    is computed. *)
Theorem update_cluster_assignment_distance_calls
    (w : world) (self : addr) (medoids : list addr) :
  let w' := snd (update_cluster_assignment compute_distance self medoids w) in
  (~ In self medoids ->
   distance_calls w' =
   distance_calls w ++
   map (fun m => (coordinates (objs w self), coordinates (objs w m)))
       medoids) /\
  (In self medoids -> distance_calls w' = distance_calls w).
Proof.
  cbv zeta. rewrite update_calls. split; intros H.
  - rewrite (proj2 (py_in_false self medoids) H). reflexivity.
  - rewrite (proj2 (py_in_true self medoids) H). apply app_nil_r.
Qed.

Lemma update_all_calls (medoids : list addr) (ps : list addr) :
  forall w,
    length (distance_calls
              (snd (for_each ps (fun point =>
                      update_cluster_assignment compute_distance point medoids)
                    w))) =
    length (distance_calls w) +
    length medoids * length (filter (fun p => negb (py_in p medoids)) ps).
Proof.
  induction ps as [|p ps IH]; intros w; [simpl; lia|].
  pose proof (update_calls w p medoids) as Hc.
  destruct (update_point w p medoids) as [Hok _].
  destruct (update_cluster_assignment compute_distance p medoids w)
    as [res w1] eqn:Hrun.
  cbn [fst snd] in *. subst res.
  rewrite (for_each_step _ p ps w w1 Hrun), IH, Hc, length_app.
  cbn [filter]. destruct (py_in p medoids); cbn [negb length].
  - lia.
  - rewrite length_map. lia.
Qed.

(** X7: [update_clusters_assignment] computes as many distances as there
    are medoids for each point of the collection that is not one of them,
    and none for the others. *)
Theorem update_clusters_assignment_distance_count
    (self : KMedoidsAlgorithm) (w : world) (medoids : list addr) :
  prepare_medoids self w = (inr medoids, w) ->
  length (distance_calls
            (snd (update_clusters_assignment compute_distance self w))) =
  length (distance_calls w) +
  length medoids *
    length (filter (fun p => negb (py_in p medoids)) (points self)).
Proof.
  intros Hprep. unfold update_clusters_assignment, bind. rewrite Hprep.
  apply update_all_calls.
Qed.

(** X8: with no medoid (as after a construction with [clusters_num = 0]),
    [update_clusters_assignment] leaves NaN in the four assignment
    attributes of every point of the collection and computes no
    distance. *)
Theorem update_clusters_assignment_without_medoids
    (self : KMedoidsAlgorithm) (w : world) :
  medoids_indices self = [] ->
  let w' := snd (update_clusters_assignment compute_distance self w) in
  (forall a, In a (points self) -> objs w' a = reset_point (objs w a)) /\
  distance_calls w' = distance_calls w.
Proof.
  intros Hnone w'.
  assert (Hprep : prepare_medoids self w = (inr [], w)).
  { rewrite prepare_medoids_run, Hnone. f_equal. f_equal.
    induction (points self) as [|p ps IH]; [reflexivity | exact IH]. }
  split.
  - intros a Ha. subst w'.
    rewrite (proj2 (update_clusters_assignment_point self w [] Hprep)).
    rewrite (proj2 (py_in_true a (points self)) Ha). reflexivity.
  - subst w'. unfold update_clusters_assignment, bind. rewrite Hprep.
    generalize w. induction (points self) as [|p ps IH]; intros v;
      [reflexivity|].
    destruct (update_point v p []) as [Hok _].
    pose proof (update_calls v p []) as Hc.
    destruct (update_cluster_assignment compute_distance p [] v)
      as [res v1] eqn:Hrun.
    cbn [fst snd] in *. subst res.
    rewrite (for_each_step _ p ps v v1 Hrun), IH, Hc. apply app_nil_r.
Qed.

(** X9: after [update_clusters_assignment], when some point of the
    collection is a medoid, the nearest medoid of every point of the
    collection is a point whose id is in [medoids_indices]. *)
Theorem nearest_medoid_is_current_after_pass
    (self : KMedoidsAlgorithm) (w : world) :
  (exists p, In p (points self) /\
             In (idx (objs w p)) (medoids_indices self)) ->
  exists w',
    update_clusters_assignment compute_distance self w = (inr tt, w') /\
    forall p, In p (points self) ->
      exists m, nearest_medoid (objs w' p) = MRef m /\
                In (idx (objs w' m)) (medoids_indices self).
Proof. exact (update_clusters_assignment_assigns compute_distance self w). Qed.

End ScanFacts.

Section OrchestratorExtras.

Context {N : Number}.

Lemma in_medoids_indices (l : list Z) (x : Z) :
  existsb (Z.eqb x) l = true <-> In x l.
Proof.
  rewrite existsb_exists. split.
  - intros (y & Hy & Heq). apply Z.eqb_eq in Heq. subst. exact Hy.
  - intros H. exists x. split; [exact H | apply Z.eqb_refl].
Qed.

Lemma ids_of_filter (w : world) (l : list Z) (ps : list addr) :
  ids_of w (filter (fun p => existsb (Z.eqb (idx (objs w p))) l) ps) =
  filter (fun i => existsb (Z.eqb i) l) (ids_of w ps).
Proof.
  unfold ids_of. induction ps as [|p ps IH]; [reflexivity|].
  simpl. destruct (existsb _ l); simpl; rewrite IH; reflexivity.
Qed.

(** X11: [prepare_medoids] returns the points of the collection whose id is
    in [medoids_indices]; when the ids of the points are pairwise distinct
    and [medoids_indices] holds distinct ids of points, these are as many
    as the ids and their ids are the ids of [medoids_indices] up to
    order. *)
Theorem prepare_medoids_are_the_medoids
    (self : KMedoidsAlgorithm) (w : world) :
  NoDup (ids_of w (points self)) ->
  NoDup (medoids_indices self) ->
  incl (medoids_indices self) (ids_of w (points self)) ->
  exists medoids,
    prepare_medoids self w = (inr medoids, w) /\
    (forall p, In p medoids <->
               In p (points self) /\
               In (idx (objs w p)) (medoids_indices self)) /\
    Permutation (ids_of w medoids) (medoids_indices self) /\
    length medoids = length (medoids_indices self).
Proof.
  intros Hids Hmeds Hincl. eexists. split; [reflexivity|].
  assert (Hperm : Permutation
            (ids_of w (filter (fun p => existsb (Z.eqb (idx (objs w p)))
                                                (medoids_indices self))
                              (points self)))
            (medoids_indices self)).
  { rewrite ids_of_filter. apply NoDup_Permutation.
    - apply NoDup_filter, Hids.
    - exact Hmeds.
    - intros x. rewrite filter_In, in_medoids_indices. split.
      + intros [_ H]. exact H.
      + intros H. split; [apply Hincl, H | exact H]. }
  split; [|split; [exact Hperm|]].
  - intros p. rewrite filter_In, in_medoids_indices. reflexivity.
  - rewrite <- (Permutation_length Hperm). unfold ids_of.
    rewrite length_map. reflexivity.
Qed.

Lemma list_remove_last (x : Z) (l : list Z) :
  ~ In x l -> list_remove x (l ++ [x]) = Some l.
Proof.
  induction l as [|y l IH]; simpl; intros Hnot.
  - rewrite Z.eqb_refl. reflexivity.
  - destruct (Z.eqb_spec y x) as [->|_]; [exfalso; auto|].
    rewrite IH; auto.
Qed.

(** X12: swapping [old_medoid] for a point whose id is not in
    [medoids_indices] and swapping back both succeed; the orchestrator is
    as before except that in [medoids_indices] the id of [old_medoid] has
    moved from its first occurrence to the end. *)
Theorem swap_medoids_and_back
    (self : KMedoidsAlgorithm) (old_medoid new_medoid : addr) (w : world)
    (l1 l2 : list Z) :
  medoids_indices self = l1 ++ idx (objs w old_medoid) :: l2 ->
  ~ In (idx (objs w old_medoid)) l1 ->
  ~ In (idx (objs w new_medoid)) (medoids_indices self) ->
  exists self1,
    swap_medoids self old_medoid new_medoid w = (inr tt, self1) /\
    swap_medoids self1 new_medoid old_medoid w =
      (inr tt,
       mkAlgorithm (points self) (clusters_num self) (labels self)
                   ((l1 ++ l2) ++ [idx (objs w old_medoid)])) /\
    Permutation ((l1 ++ l2) ++ [idx (objs w old_medoid)])
                (medoids_indices self).
Proof.
  intros Heq Hfirst Hnew.
  assert (Hold : In (idx (objs w old_medoid)) (medoids_indices self))
    by (rewrite Heq; apply in_or_app; right; left; reflexivity).
  destruct (list_remove_some _ _ Hold) as (k1 & k2 & Heq' & Hk1 & Hrm).
  assert (Hsame : l1 ++ l2 = k1 ++ k2).
  { rewrite Heq in Heq'. clear - Heq' Hfirst Hk1.
    revert k1 Heq' Hk1. induction l1 as [|a l1 IH]; intros k1 Heq' Hk1.
    - destruct k1 as [|b k1]; simpl in *.
      + injection Heq' as ->. reflexivity.
      + injection Heq' as <- _. exfalso. apply Hk1. left. reflexivity.
    - destruct k1 as [|b k1]; simpl in *.
      + injection Heq' as -> _. exfalso. apply Hfirst. left. reflexivity.
      + injection Heq' as -> Heq'. f_equal.
        apply IH; [intros H; apply Hfirst; right; exact H | exact Heq' |].
        intros H. apply Hk1. right. exact H. }
  eexists. split.
  - unfold swap_medoids. rewrite Hrm. reflexivity.
  - split.
    + unfold swap_medoids. cbn [medoids_indices points clusters_num labels].
      rewrite <- Hsame, list_remove_last; [reflexivity|].
      intros H. apply Hnew. rewrite Heq. apply in_app_or in H.
      apply in_or_app. destruct H; [left | right; right]; assumption.
    + rewrite Heq. eapply perm_trans;
        [apply Permutation_sym, Permutation_cons_append|].
      apply Permutation_middle.
Qed.

(** X13: with distinct medoid ids, a swap of a current medoid returns, and
    the medoids prepared after it are the points of the collection whose
    id is that of [new_medoid], or is a medoid id other than that of
    [old_medoid]. *)
Theorem prepare_medoids_after_swap
    (self : KMedoidsAlgorithm) (old_medoid new_medoid : addr) (w : world) :
  NoDup (medoids_indices self) ->
  In (idx (objs w old_medoid)) (medoids_indices self) ->
  exists self' medoids,
    swap_medoids self old_medoid new_medoid w = (inr tt, self') /\
    prepare_medoids self' w = (inr medoids, w) /\
    forall p,
      In p medoids <->
      In p (points self) /\
      (idx (objs w p) = idx (objs w new_medoid) \/
       In (idx (objs w p)) (medoids_indices self) /\
       idx (objs w p) <> idx (objs w old_medoid)).
Proof.
  intros Hmeds Hold.
  destruct (list_remove_some _ _ Hold) as (l1 & l2 & Heq & _ & Hrm).
  eexists. eexists. split; [unfold swap_medoids; rewrite Hrm; reflexivity|].
  split; [reflexivity|].
  intros p. cbn [medoids_indices points]. rewrite filter_In, in_medoids_indices.
  rewrite Heq in *.
  assert (Hx : ~ In (idx (objs w old_medoid)) (l1 ++ l2))
    by (apply NoDup_remove_2; exact Hmeds).
  split; intros [Hp H]; (split; [exact Hp|]).
  - apply in_app_or in H. destruct H as [H|[<-|[]]]; [right | left; reflexivity].
    split; [|intros Heq'; apply Hx; rewrite <- Heq'; exact H].
    apply in_app_or in H. apply in_or_app.
    destruct H; [left | right; right]; assumption.
  - apply in_or_app. destruct H as [->|[H Hne]]; [right; left; reflexivity|].
    left. apply in_app_or in H. apply in_or_app.
    destruct H as [H|[H|H]]; [left; exact H | congruence | right; exact H].
Qed.

(** X14: the construction only reads the ids of the points: whether it
    returns or raises, no object has changed and no distance has been
    computed; the orchestrator it returns holds the given points, cluster
    count and labels. *)
Theorem init_reads_only
    (ps : list addr) (k : Z) (lbls : option (list string)) (w : world) :
  let outcome := KMedoidsAlgorithm_init ps k lbls w in
  objs (snd outcome) = objs w /\
  distance_calls (snd outcome) = distance_calls w /\
  forall self, fst outcome = inr self ->
               points self = ps /\ clusters_num self = k /\ labels self = lbls.
Proof.
  cbv zeta. unfold KMedoidsAlgorithm_init.
  destruct (truthy lbls && negb (len_labels lbls =? k)%Z).
  - repeat split; discriminate.
  - unfold bind. rewrite get_initial_medoids_indices_run.
    destruct (Z_lt_dec k 0) as [Hneg|Hpos];
      [|destruct (Z_lt_dec (Z.of_nat (length (ids_of w ps))) k) as [Hbig|Hok]].
    + rewrite random_sample_out_of_range by auto. repeat split; discriminate.
    + rewrite random_sample_out_of_range by auto. repeat split; discriminate.
    + destruct (random_sample_in_range (ids_of w ps) k w)
        as (s & w' & -> & _ & _ & Ho & Hc); [lia|].
      cbn [fst snd ret]. split; [exact Ho|]. split; [exact Hc|].
      intros self Hself. injection Hself as <-. repeat split.
Qed.

(** X15: when the labels are absent, empty, or not as many as
    [clusters_num], and the medoid ids are distinct, the mapper sends each
    medoid id to its zero-based position in [medoids_indices] and has no
    other key. *)
Theorem mapper_falls_back_to_positions
    (self : KMedoidsAlgorithm) (x : Z) :
  truthy (labels self) && (len_labels (labels self) =? clusters_num self)%Z
    = false ->
  NoDup (medoids_indices self) ->
  dict_get Z.eqb x (get_labels_mapper self) =
  option_map (fun i => CInt (Z.of_nat i)) (index_of x (medoids_indices self)).
Proof.
  intros Hcond Hnd. unfold get_labels_mapper. rewrite Hcond.
  rewrite (dict_of_nodup _ _ Z.eqb Z_eqb_eq)
    by (rewrite enumerate_keys; assumption).
  rewrite enumerate_lookup. destruct (index_of x (medoids_indices self));
    reflexivity.
Qed.

(** X16: when the labels are supplied, not empty, as many as
    [clusters_num] and as the medoid ids, and the medoid ids are distinct,
    the mapper sends the medoid id at position [i] of [medoids_indices] to
    the label at position [i] and has no other key. *)
Theorem mapper_uses_labels_by_position
    (self : KMedoidsAlgorithm) (l : list string) (x : Z) :
  labels self = Some l ->
  l <> [] ->
  length l = length (medoids_indices self) ->
  Z.of_nat (length l) = clusters_num self ->
  NoDup (medoids_indices self) ->
  dict_get Z.eqb x (get_labels_mapper self) =
  match index_of x (medoids_indices self) with
  | Some i => option_map CStr (nth_error l i)
  | None => None
  end.
Proof.
  intros Hl Hne Hlen Hk Hnd. unfold get_labels_mapper. rewrite Hl.
  destruct l as [|s0 l0]; [congruence|].
  cbn [truthy len_labels andb]. rewrite Hk, Z.eqb_refl.
  rewrite (dict_of_nodup _ _ Z.eqb Z_eqb_eq)
    by (rewrite combine_keys; assumption).
  apply combine_lookup. exact Hlen.
Qed.

End OrchestratorExtras.

(** ** The Point claims on the worked example *)

Lemma update_cluster_assignment_two_nearest_witness :
  ~ In 2 [0; 1] /\ [0; 1] <> [] /\
  exists w',
    update_cluster_assignment manhattan 2 [0; 1] example_world = (inr tt, w') /\
    (exists m,
       nearest_medoid_distance (objs w' 2) = DNum m /\
       kth_smallest 0 m (distances_to manhattan example_world 2 [0; 1])) /\
    (length [0; 1] = 1 ->
       second_nearest_medoid (objs w' 2) = MNan /\
       second_nearest_medoid_distance (objs w' 2) = DNan) /\
    (2 <= length [0; 1] ->
       (exists s,
          second_nearest_medoid_distance (objs w' 2) = DNum s /\
          kth_smallest 1 s (distances_to manhattan example_world 2 [0; 1])) /\
       py_le_holds (nearest_medoid_distance (objs w' 2))
                   (second_nearest_medoid_distance (objs w' 2))).
Proof.
  assert (H1 : ~ In 2 [0; 1]) by (simpl; intros [H|[H|[]]]; discriminate).
  assert (H2 : [0; 1] <> @nil addr) by discriminate.
  split; [exact H1|]. split; [exact H2|].
  exact (update_cluster_assignment_two_nearest manhattan example_world 2
           [0; 1] H1 H2).
Defined.

(** C2 as stated fails for a single medoid: [C] assigned against [A] alone
    has [nearest_medoid_distance = 5] and [second_nearest_medoid_distance]
    NaN, and [5 <= nan] is false. *)
Lemma nearest_le_second_fails_for_single_medoid :
  ~ In 2 [0] /\ [0] <> [] /\
  update_cluster_assignment manhattan 2 [0] example_world =
    (inr tt, single_medoid_world) /\
  nearest_medoid_distance (objs single_medoid_world 2) = DNum 5%Z /\
  second_nearest_medoid_distance (objs single_medoid_world 2) = DNan /\
  ~ py_le_holds (nearest_medoid_distance (objs single_medoid_world 2))
                (second_nearest_medoid_distance (objs single_medoid_world 2)).
Proof.
  split; [simpl; intros [H|[]]; discriminate|].
  split; [discriminate|].
  repeat (split; [vm_compute; reflexivity|]).
  vm_compute. intros H. exact H.
Qed.

(** After the pass over all points of the worked example: the cost for [C]
    of replacing [B] by [D] is 0, its nearest medoid [A] being no farther
    than [D]. *)
Lemma compute_medoid_replacement_cost_policy_witness :
  In 1 [0; 1] /\ ~ In 3 [0; 1] /\
  objs assigned_world 2 =
    objs (snd (update_cluster_assignment manhattan 2 [0; 1] example_world)) 2 /\
  (nearest_medoid (objs assigned_world 2) = MRef 1 -> 2 <= length [0; 1]) /\
  fst (compute_medoid_replacement_cost manhattan 2 1 3 [0; 1]
         assigned_world) = inr (DNum 0%Z).
Proof.
  assert (H1 : In 1 [0; 1]) by (simpl; auto).
  assert (H2 : ~ In 3 [0; 1]) by (simpl; intros [H|[H|[]]]; discriminate).
  assert (H3 : objs assigned_world 2 =
               objs (snd (update_cluster_assignment manhattan 2 [0; 1]
                            example_world)) 2) by (vm_compute; reflexivity).
  assert (H4 : nearest_medoid (objs assigned_world 2) = MRef 1 ->
               2 <= length [0; 1]) by (intros _; simpl; lia).
  repeat (split; [assumption|]).
  destruct (compute_medoid_replacement_cost_policy manhattan example_world
              assigned_world 2 1 3 [0; 1] H1 H2 H3 H4) as [_ H].
  destruct H as (n & Hn & _ & Hother).
  - simpl; intros [H|[H|[]]]; discriminate.
  - assert (Hnm : nearest_medoid (objs assigned_world 2) <> MRef 1)
      by (vm_compute; discriminate).
    destruct (Hother Hnm) as [_ Hsame].
    vm_compute in Hn. injection Hn as <-.
    apply Hsame. vm_compute. reflexivity.
Defined.

Lemma cost_single_medoid_witness :
  ~ In 2 [0] /\
  nearest_medoid (objs single_medoid_world 2) = MRef 0 /\
  nearest_medoid_distance (objs single_medoid_world 2) = DNum 5%Z /\
  second_nearest_medoid (objs single_medoid_world 2) = MNan /\
  second_nearest_medoid_distance (objs single_medoid_world 2) = DNan /\
  fst (compute_medoid_replacement_cost manhattan 2 0 3 [0]
         single_medoid_world) = inr (DNum 10%Z).
Proof.
  assert (H1 : ~ In 2 [0]) by (simpl; intros [H|[]]; discriminate).
  assert (H2 : nearest_medoid (objs single_medoid_world 2) = MRef 0)
    by (vm_compute; reflexivity).
  assert (H3 : nearest_medoid_distance (objs single_medoid_world 2) = DNum 5%Z)
    by (vm_compute; reflexivity).
  assert (H4 : second_nearest_medoid (objs single_medoid_world 2) = MNan)
    by (vm_compute; reflexivity).
  assert (H5 : second_nearest_medoid_distance (objs single_medoid_world 2) =
               DNan) by (vm_compute; reflexivity).
  repeat (split; [assumption|]).
  rewrite (cost_single_medoid manhattan single_medoid_world 2 0 3 [0] 5%Z
             H1 H2 H3 H4 H5).
  vm_compute. reflexivity.
Defined.

(** C3 at the failing input: [C] is assigned as a non-medoid (nearest [A]
    at 5, second nearest [B] at 5), then swapped in for [B] and assigned
    again.  It now is its own nearest medoid, and its three other
    assignment attributes are those of the earlier assignment. *)
Theorem stale_assignment_of_swapped_in_medoid :
  medoids_indices swapped_algorithm = [0%Z; 2%Z] /\
  nearest_medoid (objs reassigned_world 2) = MRef 2 /\
  nearest_medoid_distance (objs reassigned_world 2) = DNum 5%Z /\
  second_nearest_medoid (objs reassigned_world 2) = MRef 1 /\
  second_nearest_medoid_distance (objs reassigned_world 2) = DNum 5%Z.
Proof. repeat (split; [vm_compute; reflexivity|]). vm_compute. reflexivity. Qed.

(** ** The orchestrator claims on the worked example *)

Lemma init_checks_label_count_witness :
  KMedoidsAlgorithm_init [0; 1; 2; 3] 2 (Some ["left"%string]) seeded_world =
    (inl ConfigurationError, seeded_world) /\
  fst (KMedoidsAlgorithm_init [0; 1; 2; 3] 2 None seeded_world) <>
    inl ConfigurationError.
Proof.
  pose proof (init_checks_label_count [0; 1; 2; 3] 2 (Some ["left"%string])
                seeded_world) as [Hbad _].
  pose proof (init_checks_label_count [0; 1; 2; 3] 2 None seeded_world)
    as [_ Hgood].
  split.
  - apply (Hbad ["left"%string]); [reflexivity | discriminate | simpl; lia].
  - apply Hgood. left. reflexivity.
Defined.

(** C7 as stated fails for the empty list: it is supplied, its length 0
    differs from [clusters_num = 2], and the construction returns. *)
Lemma empty_labels_pass_the_label_check :
  Z.of_nat (length (@nil string)) <> 2%Z /\
  fst (KMedoidsAlgorithm_init [0; 1; 2; 3] 2 (Some []) seeded_world) =
    inr (mkAlgorithm [0; 1; 2; 3] 2 (Some []) [3%Z; 2%Z]).
Proof. split; [simpl; lia | vm_compute; reflexivity]. Qed.

Lemma init_checks_cluster_count_witness :
  KMedoidsAlgorithm_init [0; 1; 2; 3] 5 None seeded_world =
    (inl InsufficientPointsError, seeded_world) /\
  exists medoids w',
    KMedoidsAlgorithm_init [0; 1; 2; 3] 2 None seeded_world =
      (inr (mkAlgorithm [0; 1; 2; 3] 2 None medoids), w') /\
    Z.of_nat (length medoids) = 2%Z /\
    sampled_from medoids (ids_of seeded_world [0; 1; 2; 3]).
Proof.
  split.
  - apply (init_checks_cluster_count [0; 1; 2; 3] 5 None seeded_world);
      [left; reflexivity | simpl; lia].
  - apply (init_checks_cluster_count [0; 1; 2; 3] 2 None seeded_world);
      [left; reflexivity | simpl; lia].
Defined.

(** C8 as stated fails for [clusters_num = 0], which is not positive: the
    construction returns, with no medoid. *)
Lemma zero_clusters_are_accepted :
  (0 <= 0)%Z /\
  KMedoidsAlgorithm_init [0; 1; 2; 3] 0 None seeded_world =
    (inr (mkAlgorithm [0; 1; 2; 3] 0 None []), seeded_world).
Proof. split; [lia | vm_compute; reflexivity]. Qed.

Lemma swap_medoids_outcome_witness :
  swap_medoids example_algorithm 2 3 example_world =
    (inl InvalidSwapError, example_algorithm) /\
  exists l1 l2,
    medoids_indices example_algorithm = l1 ++ 1%Z :: l2 /\
    ~ In 1%Z l1 /\
    swap_medoids example_algorithm 1 2 example_world =
      (inr tt, mkAlgorithm [0; 1; 2; 3] 2 None ((l1 ++ l2) ++ [2%Z])).
Proof.
  split.
  - apply (swap_medoids_outcome example_algorithm 2 3 example_world).
    simpl. intros [H|[H|[]]]; discriminate.
  - apply (swap_medoids_outcome example_algorithm 1 2 example_world).
    simpl. auto.
Defined.

Lemma example_ids_distinct : NoDup (ids_of seeded_world [0; 1; 2; 3]).
Proof.
  unfold ids_of. simpl.
  repeat (constructor; [simpl; intuition discriminate|]). constructor.
Qed.

Lemma example_invariant : medoids_invariant example_algorithm example_world.
Proof.
  unfold medoids_invariant, ids_of. simpl. split; [reflexivity|]. split.
  - repeat (constructor; [simpl; intuition discriminate|]). constructor.
  - intros x [<-|[<-|[]]]; simpl; auto.
Qed.

Lemma medoids_invariant_kept_witness :
  (forall w' self,
     KMedoidsAlgorithm_init [0; 1; 2; 3] 2 None seeded_world = (inr self, w') ->
     medoids_invariant self w') /\
  exists self',
    swap_medoids example_algorithm 1 2 example_world = (inr tt, self') /\
    medoids_invariant self' example_world.
Proof.
  destruct medoids_invariant_kept as (Hinit & Hswap & _). split.
  - intros w' self. apply Hinit. exact example_ids_distinct.
  - apply Hswap.
    + exact example_invariant.
    + simpl. auto.
    + simpl. auto.
    + simpl. intros [H|[H|[]]]; discriminate.
Defined.

(** C5 as stated fails when [new_medoid] is a current medoid other than
    [old_medoid]: swapping [A] for [B] in the medoids [A], [B] leaves the id
    of [B] twice. *)
Lemma swap_for_a_current_medoid_duplicates :
  medoids_invariant example_algorithm example_world /\
  In (idx (objs example_world 0)) (medoids_indices example_algorithm) /\
  In 1 (points example_algorithm) /\
  swap_medoids example_algorithm 0 1 example_world =
    (inr tt, mkAlgorithm [0; 1; 2; 3] 2 None [1%Z; 1%Z]) /\
  ~ NoDup [1%Z; 1%Z].
Proof.
  split; [exact example_invariant|].
  split; [simpl; auto|]. split; [simpl; auto|]. split; [reflexivity|].
  intros H. inversion H as [|x l Hnot _]. apply Hnot. left. reflexivity.
Qed.

(** The result table of the worked example: after the pass over all points
    the call raises at its first statement. *)
Lemma get_result_df_on_the_example
    (frame series : Type)
    (pd_DataFrame : list (string * list cell) -> M world frame)
    (pd_getitem : string -> frame -> M world series)
    (pd_setitem : string -> series -> frame -> M world frame)
    (pd_replace_inplace :
       string -> list (Z * cell) -> frame -> M world frame) :
  update_clusters_assignment manhattan example_algorithm example_world =
    (inr tt, assigned_world) /\
  get_result_df pd_DataFrame pd_getitem pd_setitem pd_replace_inplace
    example_algorithm assigned_world =
    (inl (AttributeError "get_data"), assigned_world).
Proof.
  split; [vm_compute; reflexivity|].
  exact (get_result_df_run frame series pd_DataFrame pd_getitem pd_setitem
           pd_replace_inplace example_algorithm assigned_world).
Qed.

(** ** The further properties on the worked example *)

Lemma not_in_two (a b c : nat) : a <> b -> a <> c -> ~ In a [b; c].
Proof. intros H1 H2 [H|[H|[]]]; congruence. Qed.

Lemma update_clusters_assignment_pointwise_witness :
  prepare_medoids example_algorithm example_world =
    (inr [0; 1], example_world) /\
  fst (update_clusters_assignment manhattan example_algorithm example_world) =
    inr tt.
Proof.
  assert (H : prepare_medoids example_algorithm example_world =
              (inr [0; 1], example_world)) by (vm_compute; reflexivity).
  split; [exact H|].
  exact (proj1 (update_clusters_assignment_pointwise manhattan
                  example_algorithm example_world [0; 1] H)).
Defined.

Lemma nearest_is_first_at_least_distance_witness :
  ~ In 2 [0; 1] /\ [0; 1] <> [] /\
  exists l1 m l2,
    [0; 1] = l1 ++ m :: l2 /\
    nearest_medoid
      (objs (snd (update_cluster_assignment manhattan 2 [0; 1] example_world))
            2) = MRef m.
Proof.
  assert (H1 : ~ In 2 [0; 1]) by (apply not_in_two; discriminate).
  assert (H2 : [0; 1] <> @nil addr) by discriminate.
  split; [exact H1|]. split; [exact H2|].
  destruct (nearest_is_first_at_least_distance manhattan example_world 2
              [0; 1] H1 H2) as (l1 & m & l2 & Heq & Hnm & _).
  exists l1, m, l2. split; [exact Heq | exact Hnm].
Defined.

Lemma cost_is_change_of_least_distance_witness :
  ~ In 3 ([0] ++ 1 :: []) /\ ~ In 1 ([0] ++ []) /\
  objs assigned_world 3 =
    objs (snd (update_cluster_assignment manhattan 3 ([0] ++ 1 :: [])
                 example_world)) 3 /\
  (forall m, In m ([0] ++ 1 :: []) ->
             coordinates (objs assigned_world m) =
             coordinates (objs example_world m)) /\
  exists n x,
    nearest_medoid_distance (objs assigned_world 3) = DNum n /\
    kth_smallest 0 x (distances_to manhattan assigned_world 3 [0; 2]) /\
    (fst (compute_medoid_replacement_cost manhattan 3 1 2 [0; 1]
            assigned_world) = inr (DNum (x - n)%Z) \/
     fst (compute_medoid_replacement_cost manhattan 3 1 2 [0; 1]
            assigned_world) = inr (DNum 0%Z) /\ x = n).
Proof.
  assert (H1 : ~ In 3 ([0] ++ 1 :: [])) by (apply not_in_two; discriminate).
  assert (H2 : ~ In 1 ([0] ++ []))
    by (simpl; intros [H|[]]; discriminate).
  assert (H3 : objs assigned_world 3 =
               objs (snd (update_cluster_assignment manhattan 3
                            ([0] ++ 1 :: []) example_world)) 3)
    by (vm_compute; reflexivity).
  assert (H4 : forall m, In m ([0] ++ 1 :: []) ->
                         coordinates (objs assigned_world m) =
                         coordinates (objs example_world m))
    by (intros m [<-|[<-|[]]]; vm_compute; reflexivity).
  split; [exact H1|]. split; [exact H2|]. split; [exact H3|].
  split; [exact H4|].
  destruct (cost_is_change_of_least_distance manhattan example_world
              assigned_world 3 1 2 [0] [] H1 H2 H3 H4)
    as (n & x & Hn & _ & Hx & Hcost).
  exists n, x. split; [exact Hn|]. split; [exact Hx | exact Hcost].
Defined.

Lemma cost_of_unassigned_point_raises_witness :
  ~ In 2 [0; 1] /\
  nearest_medoid_distance (objs example_world 2) = DNone /\
  second_nearest_medoid_distance (objs example_world 2) = DNone /\
  fst (compute_medoid_replacement_cost manhattan 2 0 3 [0; 1] example_world) =
    inl TypeError.
Proof.
  assert (H1 : ~ In 2 [0; 1]) by (apply not_in_two; discriminate).
  split; [exact H1|]. split; [reflexivity|]. split; [reflexivity|].
  exact (cost_of_unassigned_point_raises manhattan example_world 2 0 3 [0; 1]
           H1 eq_refl eq_refl).
Defined.

Lemma update_cluster_assignment_distance_calls_witness :
  ~ In 2 [0; 1] /\ In 0 [0; 1] /\
  distance_calls
    (snd (update_cluster_assignment manhattan 2 [0; 1] example_world)) =
    [(xy 5 0, xy 0 0); (xy 5 0, xy 10 0)] /\
  distance_calls
    (snd (update_cluster_assignment manhattan 0 [0; 1] example_world)) = [].
Proof.
  assert (H1 : ~ In 2 [0; 1]) by (apply not_in_two; discriminate).
  assert (H2 : In 0 [0; 1]) by (left; reflexivity).
  split; [exact H1|]. split; [exact H2|]. split.
  - rewrite (proj1 (update_cluster_assignment_distance_calls manhattan
                      example_world 2 [0; 1]) H1).
    reflexivity.
  - rewrite (proj2 (update_cluster_assignment_distance_calls manhattan
                      example_world 0 [0; 1]) H2).
    reflexivity.
Defined.

Lemma update_clusters_assignment_distance_count_witness :
  prepare_medoids example_algorithm example_world =
    (inr [0; 1], example_world) /\
  length (distance_calls assigned_world) = 4.
Proof.
  assert (H : prepare_medoids example_algorithm example_world =
              (inr [0; 1], example_world)) by (vm_compute; reflexivity).
  split; [exact H|]. unfold assigned_world.
  rewrite (update_clusters_assignment_distance_count manhattan
             example_algorithm example_world [0; 1] H).
  reflexivity.
Defined.

Lemma update_clusters_assignment_without_medoids_witness :
  medoids_indices empty_algorithm = [] /\
  (forall a, In a (points empty_algorithm) ->
     objs (snd (update_clusters_assignment manhattan empty_algorithm
                  example_world)) a = reset_point (objs example_world a)) /\
  distance_calls
    (snd (update_clusters_assignment manhattan empty_algorithm example_world))
    = distance_calls example_world.
Proof.
  split; [reflexivity|].
  exact (update_clusters_assignment_without_medoids manhattan empty_algorithm
           example_world eq_refl).
Defined.

Lemma nearest_medoid_is_current_after_pass_witness :
  (exists p, In p (points example_algorithm) /\
             In (idx (objs example_world p))
                (medoids_indices example_algorithm)) /\
  exists w',
    update_clusters_assignment manhattan example_algorithm example_world =
      (inr tt, w') /\
    forall p, In p (points example_algorithm) ->
      exists m, nearest_medoid (objs w' p) = MRef m /\
                In (idx (objs w' m)) (medoids_indices example_algorithm).
Proof.
  assert (H : exists p, In p (points example_algorithm) /\
                        In (idx (objs example_world p))
                           (medoids_indices example_algorithm)).
  { exists 0. split; left; reflexivity. }
  split; [exact H|].
  exact (nearest_medoid_is_current_after_pass manhattan example_algorithm
           example_world H).
Defined.

Lemma example_world_ids_distinct :
  NoDup (ids_of example_world (points example_algorithm)).
Proof.
  unfold ids_of. simpl.
  repeat (constructor; [simpl; intuition discriminate|]). constructor.
Qed.

Lemma prepare_medoids_are_the_medoids_witness :
  NoDup (ids_of example_world (points example_algorithm)) /\
  NoDup (medoids_indices example_algorithm) /\
  incl (medoids_indices example_algorithm)
       (ids_of example_world (points example_algorithm)) /\
  exists medoids,
    prepare_medoids example_algorithm example_world =
      (inr medoids, example_world) /\
    length medoids = 2.
Proof.
  destruct example_invariant as (_ & Hnd & Hincl).
  split; [exact example_world_ids_distinct|].
  split; [exact Hnd|]. split; [exact Hincl|].
  destruct (prepare_medoids_are_the_medoids example_algorithm example_world
              example_world_ids_distinct Hnd Hincl)
    as (medoids & Hrun & _ & _ & Hlen).
  exists medoids. split; [exact Hrun | exact Hlen].
Defined.

Lemma swap_medoids_and_back_witness :
  medoids_indices example_algorithm =
    [0%Z] ++ idx (objs example_world 1) :: [] /\
  ~ In (idx (objs example_world 1)) [0%Z] /\
  ~ In (idx (objs example_world 2)) (medoids_indices example_algorithm) /\
  exists self1,
    swap_medoids example_algorithm 1 2 example_world = (inr tt, self1) /\
    swap_medoids self1 2 1 example_world = (inr tt, example_algorithm).
Proof.
  assert (H1 : medoids_indices example_algorithm =
               [0%Z] ++ idx (objs example_world 1) :: []) by reflexivity.
  assert (H2 : ~ In (idx (objs example_world 1)) [0%Z])
    by (simpl; intros [H|[]]; discriminate).
  assert (H3 : ~ In (idx (objs example_world 2))
                    (medoids_indices example_algorithm))
    by (simpl; intros [H|[H|[]]]; discriminate).
  split; [exact H1|]. split; [exact H2|]. split; [exact H3|].
  destruct (swap_medoids_and_back example_algorithm 1 2 example_world
              [0%Z] [] H1 H2 H3) as (self1 & Hgo & Hback & _).
  exists self1. split; [exact Hgo | exact Hback].
Defined.

Lemma prepare_medoids_after_swap_witness :
  NoDup (medoids_indices example_algorithm) /\
  In (idx (objs example_world 1)) (medoids_indices example_algorithm) /\
  exists self' medoids,
    swap_medoids example_algorithm 1 2 example_world = (inr tt, self') /\
    prepare_medoids self' example_world = (inr medoids, example_world) /\
    In 2 medoids /\ ~ In 1 medoids.
Proof.
  destruct example_invariant as (_ & Hnd & _).
  assert (H : In (idx (objs example_world 1))
                 (medoids_indices example_algorithm))
    by (right; left; reflexivity).
  split; [exact Hnd|]. split; [exact H|].
  destruct (prepare_medoids_after_swap example_algorithm 1 2 example_world
              Hnd H) as (self' & medoids & Hswap & Hprep & Hin).
  exists self', medoids. split; [exact Hswap|]. split; [exact Hprep|]. split.
  - apply Hin. split; [simpl; auto | left; reflexivity].
  - intros H1. apply Hin in H1. destruct H1 as [_ [H1|[_ H1]]].
    + discriminate.
    + apply H1. reflexivity.
Defined.

Lemma init_reads_only_witness :
  objs (snd (KMedoidsAlgorithm_init [0; 1; 2; 3] 2 None seeded_world)) =
    objs seeded_world /\
  forall self,
    fst (KMedoidsAlgorithm_init [0; 1; 2; 3] 2 None seeded_world) = inr self ->
    points self = [0; 1; 2; 3].
Proof.
  destruct (init_reads_only [0; 1; 2; 3] 2 None seeded_world)
    as (Hobjs & _ & Hself).
  split; [exact Hobjs|]. intros self H. exact (proj1 (Hself self H)).
Defined.

Lemma mapper_falls_back_to_positions_witness :
  truthy (labels example_algorithm) &&
    (len_labels (labels example_algorithm) =? clusters_num example_algorithm)%Z
    = false /\
  NoDup (medoids_indices example_algorithm) /\
  dict_get Z.eqb 1%Z (get_labels_mapper example_algorithm) = Some (CInt 1).
Proof.
  destruct example_invariant as (_ & Hnd & _).
  split; [reflexivity|]. split; [exact Hnd|].
  rewrite (mapper_falls_back_to_positions example_algorithm 1%Z eq_refl Hnd).
  reflexivity.
Defined.

Lemma mapper_uses_labels_by_position_witness :
  labels labelled_algorithm = Some ["left"; "right"]%string /\
  NoDup (medoids_indices labelled_algorithm) /\
  dict_get Z.eqb 1%Z (get_labels_mapper labelled_algorithm) =
    Some (CStr "right").
Proof.
  destruct example_invariant as (_ & Hnd & _).
  split; [reflexivity|]. split; [exact Hnd|].
  rewrite (mapper_uses_labels_by_position labelled_algorithm
             ["left"; "right"]%string 1%Z eq_refl);
    [reflexivity | discriminate | reflexivity | reflexivity | exact Hnd].
Defined.
